(** * Shallow embedding of [src/core/wasm/src/lib.rs] (mutcutt, audio level analysis)

    IEEE 754 arithmetic is taken from the Standard Library's [SpecFloat]
    (Flocq's executable specification): binary32 for Rust's [f32]
    (precision 24, emax 128) and binary64 for [f64] (precision 53, emax 1024),
    round-to-nearest-even as Rust does.  A panic is [None].  The only operation
    the Rust code calls that is not arithmetic is [f32::log10], which is the
    platform's libm; it is a parameter [log10] of the functions that use it. *)

From Stdlib Require Import ZArith NArith Lia List Bool PeanoNat Reals Lra.
From Stdlib Require Import Floats.SpecFloat.
Import ListNotations.



(** ** Machine numbers *)

Definition f32 := spec_float.
Definition f64 := spec_float.

Definition prec32 : Z := 24.
Definition emax32 : Z := 128.
Definition prec64 : Z := 53.
Definition emax64 : Z := 1024.

Definition f32_mul : f32 -> f32 -> f32 := SFmul prec32 emax32.
Definition f32_lt : f32 -> f32 -> bool := SFltb.
Definition f32_le : f32 -> f32 -> bool := SFleb.

Definition f64_add : f64 -> f64 -> f64 := SFadd prec64 emax64.
Definition f64_mul : f64 -> f64 -> f64 := SFmul prec64 emax64.
Definition f64_div : f64 -> f64 -> f64 := SFdiv prec64 emax64.
Definition f64_sqrt : f64 -> f64 := SFsqrt prec64 emax64.

(** [x as f64] for [x : f32]: exact, re-normalised to binary64. *)
Definition f32_to_f64 (x : f32) : f64 :=
  match x with
  | S754_finite s m e => binary_round prec64 emax64 s m e
  | _ => x
  end.

(** [x as f32] for [x : f64]: rounds to nearest, ties to even. *)
Definition f64_to_f32 (x : f64) : f32 :=
  match x with
  | S754_finite s m e => binary_round prec32 emax32 s m e
  | _ => x
  end.

(** [n as f64] for [n : usize]. *)
Definition usize_to_f64 (n : N) : f64 :=
  binary_normalize prec64 emax64 (Z.of_N n) 0 false.

(** [f32::max]: "If one of the arguments is NaN, then the other argument is
    returned" (IEEE maxNum). *)
Definition f32_max (x y : f32) : f32 :=
  match x, y with
  | S754_nan, _ => y
  | _, S754_nan => x
  | _, _ => if f32_lt x y then y else x
  end.

(** Literals, as the compiler rounds them to binary32. *)
Definition f32_lit (m : positive) (e : Z) : f32 := binary_round prec32 emax32 false m e.

Definition f32_zero : f32 := S754_zero false.
Definition f32_one : f32 := f32_lit 1 0.
Definition f32_twenty : f32 := f32_lit 20 0.

(** Unary minus on [f32]: flips the sign. *)
Definition f32_neg (x : f32) : f32 :=
  match x with
  | S754_zero s => S754_zero (negb s)
  | S754_infinity s => S754_infinity (negb s)
  | S754_nan => S754_nan
  | S754_finite s m e => S754_finite (negb s) m e
  end.

(** [const MIN_RMS: f32 = 1.0e-10;]: the binary32 nearest to 1e-10 is
    14411519 * 2^-57 (checked with claim C5 below). *)
Definition MIN_RMS : f32 := S754_finite false 14411519 (-57).

(** ** Machine integers: [usize] on wasm32, as [N] *)

Definition usize_bits : N := 32.
Definition usize_max : N := (2 ^ usize_bits - 1)%N.

(** Rust's [+] and [-] on [usize]: with overflow checks (the dev profile) an
    overflow panics; without them (the release profile) it wraps. *)
Inductive profile := Debug | Release.

Definition usize_add (p : profile) (a b : N) : option N :=
  if N.leb (a + b) usize_max then Some (a + b)%N
  else match p with
       | Debug => None
       | Release => Some ((a + b) mod (usize_max + 1))%N
       end.

Definition usize_sub (p : profile) (a b : N) : option N :=
  if N.leb b a then Some (a - b)%N
  else match p with
       | Debug => None
       | Release => Some (usize_max + 1 + a - b)%N
       end.

(** [slice.len()] *)
Definition len {A} (v : list A) : N := N.of_nat (length v).

(** ** [calculate_rms] *)

(** [Iterator::sum] for [f64]: a left fold of [+] from [-0.0] (std's neutral
    element for float sums). *)
Definition f64_sum (xs : list f64) : f64 :=
  fold_left f64_add xs (S754_zero true).

Definition calculate_rms (chunk : list f32) : f32 :=
  match chunk with
  | [] => f32_zero
  | _ =>
      let sum_sq := f64_sum (map (fun sample => f64_mul (f32_to_f64 sample) (f32_to_f64 sample)) chunk) in
      f64_to_f32 (f64_sqrt (f64_div sum_sq (usize_to_f64 (len chunk))))
  end.

(** ** [rms_to_dbfs] *)

Section Dbfs.
Variable log10 : f32 -> f32.

Definition rms_to_dbfs (rms : f32) : f32 :=
  let rms_clamped := f32_max rms MIN_RMS in
  f32_mul f32_twenty (log10 rms_clamped).
End Dbfs.

(** ** [<[T]>::chunks_exact] *)

Record ChunksExact (A : Type) := { ce_v : list A; ce_rem : list A; ce_chunk_size : N }.
Arguments ce_v {A}. Arguments ce_rem {A}. Arguments ce_chunk_size {A}.
Arguments Build_ChunksExact {A}.

(** [chunks_exact] panics on a zero chunk size; otherwise it splits off the
    remainder [len % chunk_size] at the end. *)
Definition chunks_exact {A} (v : list A) (chunk_size : N) : option (ChunksExact A) :=
  if N.eqb chunk_size 0 then None
  else
    let rem := (len v mod chunk_size)%N in
    let fst_len := (len v - rem)%N in
    Some (Build_ChunksExact (firstn (N.to_nat fst_len) v) (skipn (N.to_nat fst_len) v) chunk_size).

(** Draining the iterator: [next] splits off [chunk_size] elements while at
    least that many are left ([fuel] bounds the number of steps). *)
Fixpoint chunks_exact_drain {A} (fuel : nat) (v : list A) (n : N) : list (list A) :=
  match fuel with
  | O => []
  | S fuel' =>
      if N.ltb (len v) n then []
      else firstn (N.to_nat n) v :: chunks_exact_drain fuel' (skipn (N.to_nat n) v) n
  end.

Definition chunks_exact_items {A} (it : ChunksExact A) : list (list A) :=
  chunks_exact_drain (length (ce_v it)) (ce_v it) (ce_chunk_size it).

(** ** [analyze_audio_rms] *)

Section Analyze.
Variable p : profile.
Variable log10 : f32 -> f32.

Definition analyze_audio_rms (pcm_data : list f32) (chunk_size_samples : N) : option (list f32) :=
  let pcm_vec := pcm_data in
  let total_samples := len pcm_vec in
  if (N.eqb total_samples 0 || N.eqb chunk_size_samples 0)%bool then Some []
  else
    match usize_add p total_samples chunk_size_samples with
    | None => None
    | Some s =>
    match usize_sub p s 1 with
    | None => None
    | Some s1 =>
    let _num_chunks := (s1 / chunk_size_samples)%N in  (* only a capacity *)
    match chunks_exact pcm_vec chunk_size_samples with
    | None => None
    | Some chunks_iter =>
        let dbfs_results :=
          map (fun chunk => rms_to_dbfs log10 (calculate_rms chunk)) (chunks_exact_items chunks_iter) in
        let remainder := ce_rem chunks_iter in
        let dbfs_results :=
          match remainder with
          | [] => dbfs_results
          | _ => dbfs_results ++ [rms_to_dbfs log10 (calculate_rms remainder)]
          end in
        Some dbfs_results
    end end end.
End Analyze.

(** ** The partition as the spec describes it *)

(** [ceil(a / b)], without the code's [(a + b - 1) / b]. *)
Definition ceil_div (a b : nat) : nat := (a / b + (if a mod b =? 0 then 0 else 1))%nat.

(** Chunk [i] starts at offset [i * n] and holds at most [n] samples;
    chunks [0 .. ceil(len / n) - 1]. *)
Definition spec_chunk {A} (n : nat) (l : list A) (i : nat) : list A :=
  firstn n (skipn (i * n) l).

Definition spec_partition {A} (n : nat) (l : list A) : list (list A) :=
  map (spec_chunk n l) (seq 0 (ceil_div (length l) n)).

(** ** Lemmas on the partition *)

Section Partition.
Context {A : Type}.

Lemma len_length (v : list A) : N.to_nat (len v) = length v.
Proof. unfold len. apply Nat2N.id. Qed.

Lemma drain_spec (n : N) (q : nat) : forall (v : list A) fuel,
  (0 < N.to_nat n)%nat -> length v = (q * N.to_nat n)%nat -> (q <= fuel)%nat ->
  chunks_exact_drain fuel v n = map (spec_chunk (N.to_nat n) v) (seq 0 q).
Proof.
  induction q as [|q IH]; intros v fuel Hn Hlen Hq.
  - destruct v; [|simpl in Hlen; discriminate].
    destruct fuel; simpl; [reflexivity|].
    unfold len; simpl. destruct (N.ltb_spec 0 n); [reflexivity|lia].
  - destruct fuel as [|fuel]; [lia|]. simpl.
    destruct (N.ltb_spec (len v) n) as [Hlt|Hge].
    + apply (f_equal N.to_nat) in Hlt || idtac. unfold len in Hlt. lia.
    + rewrite (IH (skipn (N.to_nat n) v) fuel Hn) by (try rewrite length_skipn; lia).
      unfold spec_chunk at 1; simpl. f_equal.
      rewrite <- seq_shift, map_map. apply map_ext. intros i.
      unfold spec_chunk. rewrite skipn_skipn. f_equal. f_equal. lia.
Qed.

Lemma chunks_exact_spec (v : list A) (n : N) :
  n <> 0%N ->
  exists it, chunks_exact v n = Some it /\
    chunks_exact_items it =
      map (spec_chunk (N.to_nat n) v) (seq 0 (length v / N.to_nat n)) /\
    ce_rem it = skipn (length v / N.to_nat n * N.to_nat n) v.
Proof.
  intros Hn. unfold chunks_exact. destruct (N.eqb_spec n 0); [contradiction|].
  eexists; split; [reflexivity|]. simpl.
  set (nn := N.to_nat n). assert (Hnn : (0 < nn)%nat) by (unfold nn; lia).
  assert (Hfst : N.to_nat (len v - len v mod n) = (length v / nn * nn)%nat).
  { rewrite N2Nat.inj_sub, N2Nat.inj_mod, len_length by lia. fold nn.
    pose proof (Nat.div_mod_eq (length v) nn). lia. }
  rewrite Hfst. split; [|reflexivity].
  unfold chunks_exact_items; simpl.
  assert (Hl : length (firstn (length v / nn * nn) v) = (length v / nn * nn)%nat).
  { rewrite length_firstn. apply Nat.min_l. rewrite Nat.mul_comm. apply Nat.Div0.mul_div_le. }
  rewrite Hl. rewrite (drain_spec n (length v / nn)); [| exact Hnn | exact Hl |].
  - apply map_ext_in. intros i Hi. apply in_seq in Hi.
    unfold spec_chunk. rewrite skipn_firstn_comm, firstn_firstn. f_equal.
    apply Nat.min_l. assert (S i * nn <= length v / nn * nn)%nat by (apply Nat.mul_le_mono_r; lia).
    simpl in H. lia.
  - nia.
Qed.

Lemma spec_partition_split (v : list A) (n : nat) :
  (0 < n)%nat ->
  spec_partition n v =
    map (spec_chunk n v) (seq 0 (length v / n)) ++
    (if length v mod n =? 0 then [] else [skipn (length v / n * n) v]).
Proof.
  intros Hn. unfold spec_partition, ceil_div.
  rewrite seq_app, map_app. f_equal.
  destruct (length v mod n =? 0) eqn:E; [reflexivity|]. simpl.
  unfold spec_chunk. f_equal. apply firstn_all2. rewrite length_skipn.
  pose proof (Nat.div_mod_eq (length v) n). pose proof (Nat.mod_upper_bound (length v) n). lia.
Qed.
End Partition.

(** ** [analyze_audio_rms] in terms of the partition *)

Section AnalyzeSpec.
Variable p : profile.
Variable log10 : f32 -> f32.

Definition chunk_dbfs (chunk : list f32) : f32 := rms_to_dbfs log10 (calculate_rms chunk).

(** Whether the capacity computation [total_samples + chunk_size_samples - 1]
    panics. *)
Definition capacity_overflows (total n : N) : bool :=
  match p with
  | Debug => negb (N.leb (total + n) usize_max)
  | Release => false
  end.

Lemma analyze_audio_rms_nonempty (pcm : list f32) (n : N) :
  len pcm <> 0%N -> n <> 0%N ->
  analyze_audio_rms p log10 pcm n =
    if capacity_overflows (len pcm) n then None
    else Some (map chunk_dbfs (spec_partition (N.to_nat n) pcm)).
Proof.
  intros Hl Hn. unfold analyze_audio_rms.
  destruct (N.eqb_spec (len pcm) 0) as [|_]; [contradiction|].
  destruct (N.eqb_spec n 0) as [|_]; [contradiction|]. simpl.
  assert (Hrest : forall s, (p = Release \/ 1 <= s)%N ->
    match usize_sub p s 1 with
    | Some s1 =>
        match chunks_exact pcm n with
        | Some chunks_iter =>
            Some match ce_rem chunks_iter with
                 | [] => map (fun chunk => rms_to_dbfs log10 (calculate_rms chunk)) (chunks_exact_items chunks_iter)
                 | _ :: _ => map (fun chunk => rms_to_dbfs log10 (calculate_rms chunk)) (chunks_exact_items chunks_iter) ++
                             [rms_to_dbfs log10 (calculate_rms (ce_rem chunks_iter))]
                 end
        | None => None
        end
    | None => None
    end = Some (map chunk_dbfs (spec_partition (N.to_nat n) pcm))).
  { intros s Hs.
    assert (Hsub : exists s1, usize_sub p s 1 = Some s1).
    { unfold usize_sub. destruct (N.leb_spec 1 s); [eauto|].
      destruct Hs as [->|Hs]; [eauto|lia]. }
    destruct Hsub as [s1 ->].
    destruct (chunks_exact_spec pcm n Hn) as [it [Hit [Hitems Hrem]]]. rewrite Hit.
    f_equal. rewrite spec_partition_split by lia. rewrite map_app.
    unfold chunk_dbfs. rewrite Hitems, Hrem.
    assert (Hnn : (0 < N.to_nat n)%nat) by lia.
    pose proof (Nat.div_mod_eq (length pcm) (N.to_nat n)) as Hdm.
    destruct (Nat.eqb_spec (length pcm mod N.to_nat n) 0) as [H0|H0].
    - replace (skipn (length pcm / N.to_nat n * N.to_nat n) pcm) with (@nil f32).
      + rewrite app_nil_r. reflexivity.
      + symmetry. apply skipn_all2. lia.
    - destruct (skipn (length pcm / N.to_nat n * N.to_nat n) pcm) eqn:E.
      + exfalso. apply (f_equal (@length f32)) in E. rewrite length_skipn in E. simpl in E. lia.
      + reflexivity. }
  unfold capacity_overflows, usize_add. destruct p.
  - destruct (N.leb_spec (len pcm + n) usize_max); simpl.
    + apply Hrest. lia.
    + reflexivity.
  - destruct (N.leb (len pcm + n) usize_max); apply Hrest; left; reflexivity.
Qed.
End AnalyzeSpec.

Section PartitionFacts.
Context {A : Type}.

Lemma length_spec_partition (n : nat) (l : list A) :
  length (spec_partition n l) = ceil_div (length l) n.
Proof. unfold spec_partition. rewrite length_map, length_seq. reflexivity. Qed.

Lemma firstn_add_split (a b : nat) (l : list A) :
  firstn (a + b) l = firstn a l ++ firstn b (skipn a l).
Proof.
  revert l; induction a as [|a IH]; intros l; [reflexivity|].
  destruct l; simpl; [destruct b; reflexivity|]. f_equal. apply IH.
Qed.

Lemma concat_full_chunks (n : nat) (l : list A) (q : nat) :
  concat (map (spec_chunk n l) (seq 0 q)) = firstn (q * n) l.
Proof.
  induction q as [|q IH]; [reflexivity|].
  rewrite seq_S, map_app, concat_app, IH. simpl. rewrite app_nil_r.
  unfold spec_chunk. rewrite <- firstn_add_split. f_equal. lia.
Qed.

Lemma concat_spec_partition (n : nat) (l : list A) :
  0 < n -> concat (spec_partition n l) = l.
Proof.
  intros Hn. rewrite spec_partition_split by exact Hn.
  rewrite concat_app, concat_full_chunks.
  pose proof (Nat.div_mod_eq (length l) n) as Hdm.
  destruct (Nat.eqb_spec (length l mod n) 0) as [H0|H0]; simpl.
  - rewrite app_nil_r. apply firstn_all2. lia.
  - rewrite app_nil_r. apply firstn_skipn.
Qed.

Lemma nth_spec_partition (n : nat) (l : list A) i :
  i < ceil_div (length l) n -> nth i (spec_partition n l) [] = spec_chunk n l i.
Proof.
  intros Hi. unfold spec_partition.
  rewrite nth_indep with (d' := spec_chunk n l 0) by (rewrite length_map, length_seq; exact Hi).
  rewrite map_nth, seq_nth by exact Hi. reflexivity.
Qed.

Lemma length_full_chunk (n : nat) (l : list A) i :
  i < length l / n -> length (spec_chunk n l i) = n.
Proof.
  intros Hi. unfold spec_chunk. rewrite length_firstn, length_skipn.
  assert (S i * n <= length l / n * n) by (apply Nat.mul_le_mono_r; lia).
  pose proof (Nat.div_mod_eq (length l) n). simpl in H. nia.
Qed.
End PartitionFacts.

Lemma analyze_audio_rms_empty_cases (p : profile) (log10 : f32 -> f32) (pcm : list f32) (n : N) :
  (pcm = [] \/ n = 0%N) -> analyze_audio_rms p log10 pcm n = Some [].
Proof.
  intros [->| ->]; unfold analyze_audio_rms; simpl; [reflexivity|].
  rewrite orb_true_r. reflexivity.
Qed.

(** ** Claims on the partition and the result length *)

(** C1: for every buffer and chunk size [>= 1], a result that
    [analyze_audio_rms] returns has length [ceil(total_samples / chunk_size)]
    when [total_samples > 0] and [0] when [total_samples = 0]. *)
Theorem analyze_audio_rms_length (p : profile) (log10 : f32 -> f32) (pcm : list f32) (n : N) (r : list f32) :
  (1 <= n)%N -> analyze_audio_rms p log10 pcm n = Some r ->
  length r = if length pcm =? 0 then 0 else ceil_div (length pcm) (N.to_nat n).
Proof.
  intros Hn Hr. destruct (Nat.eqb_spec (length pcm) 0) as [H0|H0].
  - destruct pcm; [|discriminate].
    rewrite analyze_audio_rms_empty_cases in Hr by auto. injection Hr as <-. reflexivity.
  - rewrite analyze_audio_rms_nonempty in Hr by (unfold len; lia).
    destruct (capacity_overflows p (len pcm) n); [discriminate|].
    injection Hr as <-. rewrite length_map, length_spec_partition. reflexivity.
Qed.

(** C2: if the buffer is empty or the chunk size is zero, [analyze_audio_rms]
    returns the empty sequence (and does not panic), whatever the other input. *)
Theorem analyze_audio_rms_degenerate (p : profile) (log10 : f32 -> f32) (pcm : list f32) (n : N) :
  (pcm = [] \/ n = 0%N) -> analyze_audio_rms p log10 pcm n = Some [].
Proof. apply analyze_audio_rms_empty_cases. Qed.

(** C6: for a non-empty buffer and chunk size [n >= 1], a returned result is
    the decibel value of each chunk of the spec's partition, in order: chunk [i]
    starts at offset [i * n]; the chunks cover the buffer exactly; the chunks
    before the last [total mod n] samples have [n] samples; a non-zero
    remainder forms one final chunk of [total mod n] samples, and there is no
    extra chunk otherwise. *)
Theorem analyze_audio_rms_chunks (p : profile) (log10 : f32 -> f32) (pcm : list f32) (n : N) (r : list f32) :
  pcm <> [] -> (1 <= n)%N -> analyze_audio_rms p log10 pcm n = Some r ->
  let nn := N.to_nat n in
  let parts := spec_partition nn pcm in
  (forall i, i < length r -> nth i r f32_zero = rms_to_dbfs log10 (calculate_rms (spec_chunk nn pcm i))) /\
  length r = length parts /\
  concat parts = pcm /\
  (forall i, i < length pcm / nn -> length (nth i parts []) = nn) /\
  (length pcm mod nn <> 0 ->
     length parts = S (length pcm / nn) /\ length (last parts []) = length pcm mod nn) /\
  (length pcm mod nn = 0 -> length parts = length pcm / nn).
Proof.
  intros Hne Hn Hr nn parts.
  assert (Hnn : 0 < nn) by (unfold nn; lia).
  rewrite analyze_audio_rms_nonempty in Hr
    by (destruct pcm; [contradiction|unfold len; simpl; lia]).
  destruct (capacity_overflows p (len pcm) n); [discriminate|]. injection Hr as <-.
  assert (Hlen : length parts = ceil_div (length pcm) nn) by apply length_spec_partition.
  refine (conj _ (conj _ (conj _ (conj _ (conj _ _))))).
  - intros i Hi. rewrite length_map in Hi. fold nn parts in Hi.
    rewrite nth_indep with (d' := chunk_dbfs log10 []) by (rewrite length_map; exact Hi).
    rewrite map_nth. unfold chunk_dbfs. f_equal. f_equal.
    apply nth_spec_partition. rewrite <- Hlen. exact Hi.
  - apply length_map.
  - apply concat_spec_partition. exact Hnn.
  - intros i Hi. unfold parts. rewrite nth_spec_partition.
    + apply length_full_chunk. exact Hi.
    + unfold ceil_div. lia.
  - intros Hm. split.
    + rewrite Hlen. unfold ceil_div. destruct (Nat.eqb_spec (length pcm mod nn) 0); [contradiction|]. lia.
    + unfold parts. rewrite spec_partition_split by exact Hnn.
      destruct (Nat.eqb_spec (length pcm mod nn) 0); [contradiction|].
      rewrite last_last, length_skipn.
      pose proof (Nat.div_mod_eq (length pcm) nn). lia.
  - intros Hm. rewrite Hlen. unfold ceil_div. rewrite Hm. simpl. lia.
Qed.

(** The release profile never panics; the dev profile panics exactly when the
    capacity sum [total_samples + chunk_size_samples] exceeds [usize::MAX]. *)
Lemma analyze_audio_rms_release_total (log10 : f32 -> f32) (pcm : list f32) (n : N) :
  exists r, analyze_audio_rms Release log10 pcm n = Some r.
Proof.
  destruct (N.eqb_spec (len pcm) 0) as [H0|H0].
  - destruct pcm; [|unfold len in H0; simpl in H0; lia].
    rewrite analyze_audio_rms_empty_cases by auto. eauto.
  - destruct (N.eqb_spec n 0) as [->|Hn].
    + rewrite analyze_audio_rms_empty_cases by auto. eauto.
    + rewrite analyze_audio_rms_nonempty by assumption. simpl. eauto.
Qed.

Lemma analyze_audio_rms_debug_panics_iff (log10 : f32 -> f32) (pcm : list f32) (n : N) :
  pcm <> [] -> n <> 0%N ->
  (analyze_audio_rms Debug log10 pcm n = None <-> (usize_max < len pcm + n)%N).
Proof.
  intros Hp Hn. rewrite analyze_audio_rms_nonempty
    by (first [assumption | destruct pcm; [contradiction|unfold len; simpl; lia]]).
  unfold capacity_overflows. destruct (N.leb_spec (len pcm + n) usize_max); simpl;
    split; intros; try discriminate; try reflexivity; lia.
Qed.

(** C3 (the dev profile): with one sample and [chunk_size_samples = usize::MAX]
    on wasm32, the capacity computation [total_samples + chunk_size_samples - 1]
    overflows and [analyze_audio_rms] panics. *)
Theorem analyze_audio_rms_capacity_overflow (log10 : f32 -> f32) :
  analyze_audio_rms Debug log10 [f32_zero] 4294967295%N = None.
Proof. reflexivity. Qed.

(** ** Witnesses *)

Lemma analyze_audio_rms_length_witness :
  (1 <= 2)%N /\ analyze_audio_rms Release (fun x => x) [f32_one; f32_one; f32_one] 2 = Some [f32_twenty; f32_twenty] /\
  length [f32_twenty; f32_twenty] = ceil_div 3 2.
Proof.
  refine (conj _ (conj _ _)); [lia|vm_compute; reflexivity|].
  exact (analyze_audio_rms_length Release (fun x => x) [f32_one; f32_one; f32_one] 2 [f32_twenty; f32_twenty]
           ltac:(lia) ltac:(vm_compute; reflexivity)).
Defined.

Lemma analyze_audio_rms_degenerate_witness :
  analyze_audio_rms Debug (fun x => x) [] 10 = Some [] /\
  analyze_audio_rms Debug (fun x => x) [f32_lit 1 (-1)] 0 = Some [].
Proof.
  split.
  - apply (analyze_audio_rms_degenerate Debug (fun x => x) [] 10). left; reflexivity.
  - apply (analyze_audio_rms_degenerate Debug (fun x => x) [f32_lit 1 (-1)] 0). right; reflexivity.
Defined.

Lemma analyze_audio_rms_chunks_witness :
  length (spec_partition 2 [f32_one; f32_one; f32_one]) = 2 /\
  length (last (spec_partition 2 [f32_one; f32_one; f32_one]) []) = 1.
Proof.
  destruct (analyze_audio_rms_chunks Release (fun x => x) [f32_one; f32_one; f32_one] 2 [f32_twenty; f32_twenty]
              ltac:(discriminate) ltac:(lia) ltac:(vm_compute; reflexivity))
    as [_ [_ [_ [_ [H _]]]]].
  exact (H ltac:(discriminate)).
Defined.

(** ** Facts on [SpecFloat]'s rounding *)

Section Rounding.
Variables prec emax : Z.
Hypothesis Hprec : (0 < prec)%Z.

Lemma iter_pos_nat {A} (f : A -> A) (p : positive) (x : A) :
  iter_pos f p x = Nat.iter (Pos.to_nat p) f x.
Proof.
  revert x; induction p as [p IH|p IH|]; intros x.
  - change (iter_pos f p~1 x) with (iter_pos f p (iter_pos f p (f x))).
    rewrite IH, IH, Pos2Nat.inj_xI, <- Nat.iter_add, Nat.iter_succ_r. f_equal. lia.
  - change (iter_pos f p~0 x) with (iter_pos f p (iter_pos f p x)).
    rewrite IH, IH, Pos2Nat.inj_xO, <- Nat.iter_add. f_equal. lia.
  - reflexivity.
Qed.

Lemma shr_1_m (mrs : shr_record) :
  (0 <= shr_m mrs)%Z -> shr_m (shr_1 mrs) = (shr_m mrs / 2)%Z.
Proof.
  destruct mrs as [m r s]; simpl. intros Hm.
  destruct m as [|[p|p|]|p]; simpl; try reflexivity; try lia.
  - rewrite Pos2Z.inj_xI, Z.add_comm, Z.mul_comm, Z.div_add by lia. reflexivity.
  - rewrite Pos2Z.inj_xO, Z.mul_comm, Z.div_mul by lia. reflexivity.
Qed.

Lemma iter_shr_1_m (k : nat) (mrs : shr_record) :
  (0 <= shr_m mrs)%Z -> shr_m (Nat.iter k shr_1 mrs) = (shr_m mrs / 2 ^ Z.of_nat k)%Z.
Proof.
  induction k as [|k IH]; intros Hm.
  - simpl. rewrite Z.div_1_r. reflexivity.
  - rewrite Nat.iter_succ. rewrite shr_1_m.
    + rewrite IH by exact Hm. rewrite Z.div_div by lia.
      f_equal. rewrite Nat2Z.inj_succ, Z.pow_succ_r by lia. lia.
    + rewrite IH by exact Hm. apply Z.div_pos; [exact Hm|]. apply Z.pow_pos_nonneg; lia.
Qed.

Lemma shr_m_nonneg (mrs : shr_record) e n :
  (0 <= shr_m mrs)%Z -> (0 <= shr_m (fst (shr mrs e n)))%Z.
Proof.
  intros Hm. unfold shr. destruct n as [|p|p]; simpl; try exact Hm.
  rewrite iter_pos_nat, iter_shr_1_m by exact Hm.
  apply Z.div_pos; [exact Hm|]. apply Z.pow_pos_nonneg; lia.
Qed.

Lemma shr_record_of_loc_m m l : shr_m (shr_record_of_loc m l) = m.
Proof. destruct l as [|[]]; reflexivity. Qed.

Lemma round_nearest_even_nonneg m l : (0 <= m)%Z -> (0 <= round_nearest_even m l)%Z.
Proof. intros Hm. destruct l as [|[]]; simpl; try lia. destruct (Z.even m); lia. Qed.

(** A non-NaN result with sign [s]. *)
Definition signed_number (s : bool) (x : spec_float) : Prop :=
  match x with
  | S754_zero b | S754_infinity b | S754_finite b _ _ => b = s
  | S754_nan => False
  end.

Lemma binary_round_aux_signed sx mx ex lx :
  (0 <= mx)%Z -> signed_number sx (binary_round_aux prec emax sx mx ex lx).
Proof.
  intros Hm. unfold binary_round_aux, shr_fexp.
  destruct (shr (shr_record_of_loc mx lx) ex _) as [mrs' e'] eqn:E1.
  assert (H1 : (0 <= shr_m mrs')%Z).
  { change mrs' with (fst (mrs', e')). rewrite <- E1.
    apply shr_m_nonneg. rewrite shr_record_of_loc_m. exact Hm. }
  destruct (shr (shr_record_of_loc (round_nearest_even (shr_m mrs') (loc_of_shr_record mrs')) loc_Exact) e' _)
    as [mrs'' e''] eqn:E2.
  assert (H2 : (0 <= shr_m mrs'')%Z).
  { change mrs'' with (fst (mrs'', e'')). rewrite <- E2.
    apply shr_m_nonneg. rewrite shr_record_of_loc_m. apply round_nearest_even_nonneg. exact H1. }
  destruct (shr_m mrs'') as [|m|m]; simpl; try reflexivity.
  - destruct (Z.leb e'' (emax - prec)); reflexivity.
  - lia.
Qed.

Lemma binary_round_signed s m e : signed_number s (binary_round prec emax s m e).
Proof.
  unfold binary_round. destruct (shl_align m e _) as [mz ez].
  apply binary_round_aux_signed. lia.
Qed.

Lemma binary_normalize_pos_signed m e sz :
  (0 < m)%Z -> signed_number false (binary_normalize prec emax m e sz).
Proof. intros Hm. destruct m; try lia. apply binary_round_signed. Qed.
End Rounding.

Section Exact.
Variables prec emax : Z.

Lemma digits2_pos_size p : digits2_pos p = Pos.size p.
Proof. induction p as [p IH|p IH|]; simpl; rewrite ?IH; reflexivity. Qed.

Lemma pos_iter_xO m d : Zpos (Pos.iter xO m d) = (Zpos m * 2 ^ Zpos d)%Z.
Proof.
  induction d as [|d IH] using Pos.peano_ind.
  - simpl. lia.
  - rewrite Pos.iter_succ, Pos2Z.inj_succ, Z.pow_succ_r by lia.
    rewrite Pos2Z.inj_xO, IH. lia.
Qed.

Lemma size_iter_xO m d : Pos.size (Pos.iter xO m d) = (Pos.size m + d)%positive.
Proof.
  induction d as [|d IH] using Pos.peano_ind.
  - simpl. lia.
  - rewrite Pos.iter_succ. simpl. rewrite IH. lia.
Qed.

Lemma binary_round_aux_exact s m e :
  fexp prec emax (Zpos (digits2_pos m) + e) = e -> (e <= emax - prec)%Z ->
  binary_round_aux prec emax s (Zpos m) e loc_Exact = S754_finite s m e.
Proof.
  intros He Hmax. unfold binary_round_aux, shr_fexp. simpl Zdigits2.
  rewrite He, Z.sub_diag.
  cbn [shr shr_record_of_loc shr_m loc_of_shr_record round_nearest_even Zdigits2].
  rewrite He, Z.sub_diag. cbn [shr shr_record_of_loc shr_m].
  apply Z.leb_le in Hmax. rewrite Hmax. reflexivity.
Qed.

Lemma binary_round_exact s m e :
  let e' := fexp prec emax (Zpos (digits2_pos m) + e) in
  (e' <= e)%Z -> (e' <= emax - prec)%Z ->
  exists m', binary_round prec emax s m e = S754_finite s m' e' /\
             Zpos m' = (Zpos m * 2 ^ (e - e'))%Z.
Proof.
  intros e' Hle Hmax. unfold binary_round, shl_align. fold e'.
  destruct (Z.sub e' e) eqn:Hd.
  - assert (He' : e' = e) by lia. rewrite He' in Hmax |- *. exists m. split.
    + apply binary_round_aux_exact; [exact He'|exact Hmax].
    + rewrite Z.sub_diag. lia.
  - lia.
  - exists (Pos.iter xO m p). split.
    + assert (Hd' : e' = (e - Zpos p)%Z) by lia.
      apply binary_round_aux_exact; [|exact Hmax].
      rewrite digits2_pos_size, size_iter_xO, <- digits2_pos_size.
      fold e'. rewrite Pos2Z.inj_add. replace (Zpos (digits2_pos m) + Zpos p + e')%Z
        with (Zpos (digits2_pos m) + e)%Z by lia. reflexivity.
    + rewrite pos_iter_xO. f_equal. f_equal. lia.
Qed.
End Exact.

Lemma size_bound p : (2 ^ (Zpos (Pos.size p) - 1) <= Zpos p < 2 ^ Zpos (Pos.size p))%Z.
Proof.
  induction p as [p IH|p IH|].
  3: { simpl. lia. }
  all: change (Pos.size _) with (Pos.succ (Pos.size p)); rewrite Pos2Z.inj_succ;
    rewrite ?(Pos2Z.inj_xI p), ?(Pos2Z.inj_xO p);
    revert IH; generalize (Pos.size p); intros k IH;
    replace (Z.succ (Zpos k) - 1)%Z with (Zpos k) by lia;
    rewrite Z.pow_succ_r by lia;
    assert (Hs : (2 ^ Zpos k = 2 * 2 ^ (Zpos k - 1))%Z)
      by (rewrite <- Z.pow_succ_r by lia; f_equal; lia);
    rewrite Hs; rewrite Hs in IH; clear Hs;
    revert IH; generalize (2 ^ (Zpos k - 1))%Z; intros; lia.
Qed.

(** [n as f64] is exact for every [usize] value [n >= 1]. *)
Lemma usize_to_f64_exact (n : N) :
  (1 <= n)%N -> (n <= usize_max)%N ->
  exists m e, usize_to_f64 n = S754_finite false m e /\ (e <= 0)%Z /\ (Zpos m = Z.of_N n * 2 ^ (- e))%Z.
Proof.
  intros H1 H2. destruct n as [|p]; [lia|]. unfold usize_to_f64. simpl Z.of_N.
  unfold binary_normalize.
  pose proof (size_bound p) as [_ Hs].
  assert (Hsz : (Zpos (Pos.size p) <= 32)%Z).
  { destruct (Z.le_gt_cases (Zpos (Pos.size p)) 32) as [|Hgt]; [assumption|].
    pose proof (size_bound p) as [Hl _].
    assert (2 ^ 32 <= 2 ^ (Zpos (Pos.size p) - 1))%Z by (apply Z.pow_le_mono_r; lia).
    unfold usize_max, usize_bits in H2. simpl in H2. lia. }
  destruct (binary_round_exact prec64 emax64 false p 0) as [m' [Hr Hm']].
  - rewrite digits2_pos_size. unfold fexp, emin, prec64, emax64. lia.
  - rewrite digits2_pos_size. unfold fexp, emin, prec64, emax64. lia.
  - exists m', (fexp prec64 emax64 (Zpos (digits2_pos p) + 0)). split; [exact Hr|].
    rewrite digits2_pos_size in *. split.
    + unfold fexp, emin, prec64, emax64. lia.
    + rewrite Hm'. f_equal.
Qed.

(** [x as f64] for a binary32 [x] keeps its value. *)
Lemma f32_to_f64_exact s m e :
  valid_binary prec32 emax32 (S754_finite s m e) = true ->
  exists m' e', f32_to_f64 (S754_finite s m e) = S754_finite s m' e' /\
    (e' <= e)%Z /\ Zpos m' = (Zpos m * 2 ^ (e - e'))%Z.
Proof.
  intros Hv. simpl in Hv. unfold bounded, canonical_mantissa in Hv.
  apply andb_prop in Hv as [Hc He]. apply Z.eqb_eq in Hc. apply Z.leb_le in He.
  unfold fexp, emin, prec32, emax32 in Hc, He.
  destruct (binary_round_exact prec64 emax64 s m e) as [m' [Hr Hm']];
    unfold fexp, emin, prec64, emax64 in *; try lia.
  exists m', (Z.max (Zpos (digits2_pos m) + e - 53) (3 - 1024 - 53)). split; [exact Hr|]. split; [lia|exact Hm'].
Qed.

(** Non-negative numbers: either zero, a positive finite number or [+inf]. *)
Definition nonneg (x : spec_float) : Prop :=
  match x with
  | S754_zero _ => True
  | _ => signed_number false x
  end.

Lemma signed_false_nonneg x : signed_number false x -> nonneg x.
Proof. destruct x; simpl; auto. Qed.

Lemma nonneg_le_zero x : nonneg x -> f32_le f32_zero x = true.
Proof. destruct x as [b|b| |b m e]; simpl; intros H; try contradiction; try subst b; reflexivity. Qed.

Lemma square_nonneg (x : f32) : x <> S754_nan -> nonneg (f64_mul (f32_to_f64 x) (f32_to_f64 x)).
Proof.
  intros Hx. destruct x as [b|b| |b m e]; [destruct b; exact I|destruct b; reflexivity|contradiction|].
  simpl. pose proof (binary_round_signed prec64 emax64 b m e) as Hs.
  destruct (binary_round prec64 emax64 b m e) as [b'|b'| |b' m' e']; simpl in Hs |- *;
    try contradiction; subst b'; try (destruct b; reflexivity).
  apply signed_false_nonneg. rewrite xorb_nilpotent. apply binary_round_aux_signed. lia.
Qed.

Lemma add_nonneg x y : nonneg x -> nonneg y -> nonneg (f64_add x y).
Proof.
  destruct x as [bx|bx| |bx mx ex], y as [b|b| |b m e]; simpl; intros Hx Hy;
    try contradiction; subst; auto; try (destruct bx, b; simpl; auto).
  - reflexivity.
  - apply signed_false_nonneg. apply binary_normalize_pos_signed. simpl. lia.
Qed.

Lemma fold_add_nonneg xs acc :
  nonneg acc -> Forall nonneg xs -> nonneg (fold_left f64_add xs acc).
Proof.
  revert acc; induction xs as [|x xs IH]; intros acc Hacc Hxs; simpl; [exact Hacc|].
  inversion Hxs; subst. apply IH; [apply add_nonneg|]; assumption.
Qed.

Lemma fold_add_nan xs acc : In S754_nan xs -> fold_left f64_add xs acc = S754_nan.
Proof.
  assert (Hn : forall ys, fold_left f64_add ys S754_nan = S754_nan).
  { induction ys; simpl; auto. }
  revert acc; induction xs as [|x xs IH]; intros acc Hin; simpl in *; [contradiction|].
  destruct Hin as [Hx|Hin].
  - subst x. unfold f64_add. destruct acc; simpl; apply Hn.
  - apply IH, Hin.
Qed.

Lemma shift_nonneg (z m : Z) :
  (0 <= m)%Z -> (0 <= match z with Z0 => m | Zpos _ => Z.shiftl m z | Zneg _ => 0 end)%Z.
Proof.
  intros Hm. destruct z; try lia. apply Z.shiftl_nonneg. exact Hm.
Qed.

Lemma div_nonneg x md ed : nonneg x -> nonneg (f64_div x (S754_finite false md ed)).
Proof.
  destruct x as [b|b| |b m e]; simpl; intros Hx; try contradiction; subst; auto.
  unfold SFdiv_core_binary.
  match goal with |- context [IntDef.Z.div_eucl ?a ?b] =>
    assert (Ha : (0 <= a)%Z) by (apply shift_nonneg; lia);
    assert (Hq : (0 <= fst (IntDef.Z.div_eucl a b))%Z) by
      (change (fst (IntDef.Z.div_eucl a b)) with (a / b)%Z; apply Z.div_pos; lia);
    destruct (IntDef.Z.div_eucl a b) as [q r]
  end.
  apply signed_false_nonneg, binary_round_aux_signed. exact Hq.
Qed.

Lemma sqrt_nonneg x : nonneg x -> nonneg (f64_sqrt x).
Proof.
  destruct x as [b|b| |b m e]; simpl; intros Hx; try contradiction; subst; auto;
    [reflexivity|].
  unfold SFsqrt_core_binary.
  match goal with |- context [IntDef.Z.sqrtrem ?a] =>
    assert (Hq : (0 <= fst (IntDef.Z.sqrtrem a))%Z) by
      (change (IntDef.Z.sqrtrem a) with (Z.sqrtrem a); rewrite Z.sqrtrem_sqrt; apply Z.sqrt_nonneg);
    destruct (IntDef.Z.sqrtrem a) as [q r]
  end.
  apply signed_false_nonneg, binary_round_aux_signed. exact Hq.
Qed.

Lemma to32_nonneg x : nonneg x -> nonneg (f64_to_f32 x).
Proof.
  destruct x as [b|b| |b m e]; simpl; intros Hx; try contradiction; subst; auto.
  apply signed_false_nonneg, binary_round_signed.
Qed.

Lemma calculate_rms_nonempty (chunk : list f32) : chunk <> [] ->
  calculate_rms chunk =
  f64_to_f32 (f64_sqrt (f64_div
    (f64_sum (map (fun sample => f64_mul (f32_to_f64 sample) (f32_to_f64 sample)) chunk))
    (usize_to_f64 (len chunk)))).
Proof. destruct chunk; [congruence|reflexivity]. Qed.

Lemma calculate_rms_nonneg_aux (chunk : list f32) :
  (len chunk <= usize_max)%N -> Forall (fun s => s <> S754_nan) chunk -> nonneg (calculate_rms chunk).
Proof.
  intros Hlen Hf. destruct chunk as [|x xs]; [exact I|].
  rewrite calculate_rms_nonempty by discriminate.
  destruct (usize_to_f64_exact (len (x :: xs))) as [m [e [Hn _]]];
    [unfold len; simpl; lia|exact Hlen|].
  rewrite Hn. apply to32_nonneg, sqrt_nonneg, div_nonneg.
  apply fold_add_nonneg; [exact I|].
  apply Forall_map. eapply Forall_impl; [|exact Hf]. intros s Hs. apply square_nonneg, Hs.
Qed.

Lemma calculate_rms_nan (chunk : list f32) : In S754_nan chunk -> calculate_rms chunk = S754_nan.
Proof.
  intros Hin. destruct chunk as [|x xs]; [contradiction|].
  rewrite calculate_rms_nonempty by discriminate. unfold f64_sum.
  rewrite fold_add_nan; [reflexivity|].
  exact (in_map (fun sample => f64_mul (f32_to_f64 sample) (f32_to_f64 sample)) _ _ Hin).
Qed.

(** ** C9: the amplitude is non-negative unless a sample is NaN *)

(** C9 (counterexample): a chunk holding a NaN sample has a NaN RMS, which is
    neither [>= 0.0] nor [<= 0.0]. *)
Lemma calculate_rms_nan_counterexample :
  calculate_rms [S754_nan] = S754_nan /\
  f32_le f32_zero (calculate_rms [S754_nan]) = false /\
  f32_le (calculate_rms [S754_nan]) f32_zero = false.
Proof. vm_compute. repeat split. Qed.

(** C9 (amended): for every chunk of at most [usize::MAX] samples, if no
    sample is NaN then [calculate_rms] returns a value [>= 0.0] (so not NaN:
    +0.0, a positive number or +inf, also for infinite samples); if some
    sample is NaN it returns NaN. *)
Theorem calculate_rms_nonneg (chunk : list f32) :
  (len chunk <= usize_max)%N ->
  (Forall (fun s => s <> S754_nan) chunk -> f32_le f32_zero (calculate_rms chunk) = true) /\
  (In S754_nan chunk -> calculate_rms chunk = S754_nan).
Proof.
  intros Hlen. split.
  - intros Hf. apply nonneg_le_zero, calculate_rms_nonneg_aux; assumption.
  - apply calculate_rms_nan.
Qed.

Lemma calculate_rms_nonneg_witness :
  (len [f32_lit 3 0; S754_infinity false; f32_neg f32_one] <= usize_max)%N /\
  f32_le f32_zero (calculate_rms [f32_lit 3 0; S754_infinity false; f32_neg f32_one]) = true.
Proof.
  assert (H : (len [f32_lit 3 0; S754_infinity false; f32_neg f32_one] <= usize_max)%N)
    by (vm_compute; discriminate).
  split; [exact H|].
  apply (proj1 (calculate_rms_nonneg _ H)).
  repeat constructor; vm_compute; discriminate.
Defined.

(** ** C4: the RMS is computed in binary64 and narrowed after the square root *)

(** A binary32 sample [2^100]: its square overflows binary32 but not binary64. *)
Definition f32_big : f32 := S754_finite false 8388608 77.

(** C4: for every chunk of at most [usize::MAX] samples, [calculate_rms]
    returns 0.0 on the empty chunk and otherwise
    [(sqrt ((sum of (sample as f64)^2) / (N as f64))) as f32], where the
    squares, the sum, the division and the square root are binary64
    operations and the narrowing to binary32 comes last; the widening of
    each binary32 sample and the conversion of [N] are exact, and the
    binary64 accumulator keeps a square that overflows binary32
    ([2^100 * 2^100]) finite, so that the RMS of [[2^100]] is [2^100]. *)
Theorem calculate_rms_f64_pipeline (chunk : list f32) :
  (len chunk <= usize_max)%N ->
  (chunk = [] -> calculate_rms chunk = f32_zero) /\
  (chunk <> [] ->
     calculate_rms chunk =
     f64_to_f32 (f64_sqrt (f64_div
       (f64_sum (map (fun sample => f64_mul (f32_to_f64 sample) (f32_to_f64 sample)) chunk))
       (usize_to_f64 (len chunk)))) /\
     exists m e, usize_to_f64 (len chunk) = S754_finite false m e /\
       (e <= 0)%Z /\ Zpos m = (Z.of_N (len chunk) * 2 ^ (- e))%Z) /\
  (forall s m e, In (S754_finite s m e) chunk -> valid_binary prec32 emax32 (S754_finite s m e) = true ->
     exists m' e', f32_to_f64 (S754_finite s m e) = S754_finite s m' e' /\
       (e' <= e)%Z /\ Zpos m' = (Zpos m * 2 ^ (e - e'))%Z) /\
  (valid_binary prec32 emax32 f32_big = true /\
   f32_mul f32_big f32_big = S754_infinity false /\ calculate_rms [f32_big] = f32_big).
Proof.
  intros Hlen. refine (conj _ (conj _ (conj _ _))).
  - intros ->. reflexivity.
  - intros Hne. split; [apply calculate_rms_nonempty, Hne|].
    apply usize_to_f64_exact; [|exact Hlen].
    destruct chunk; [congruence|]. unfold len. simpl. lia.
  - intros s m e _ Hv. apply f32_to_f64_exact, Hv.
  - vm_compute. repeat split.
Qed.

Lemma calculate_rms_f64_pipeline_witness :
  (len [f32_one; f32_lit 3 0] <= usize_max)%N /\
  calculate_rms [f32_one; f32_lit 3 0] = S754_finite false 9378749 (-22).
Proof.
  assert (H : (len [f32_one; f32_lit 3 0] <= usize_max)%N) by (vm_compute; discriminate).
  split; [exact H|].
  rewrite (proj1 (proj1 (proj2 (calculate_rms_f64_pipeline _ H)) ltac:(discriminate))).
  vm_compute. reflexivity.
Defined.

(** ** C5: the floor of [rms_to_dbfs] *)

(** C5: for every amplitude [a] (zero, negative, infinite or NaN included),
    [rms_to_dbfs a] is [20 * log10 (max a MIN_RMS)]; every [a] below
    [MIN_RMS], and NaN, gives the same output as [MIN_RMS] itself, and every
    other [a] gives [20 * log10 a]; [MIN_RMS] is a binary32 number and the one
    nearest to 1e-10 (it is [14411519 * 2^-57], within half a unit in the last
    place, [2^-58], of [10^-10]). *)
Theorem rms_to_dbfs_floor (log10 : f32 -> f32) (a : f32) :
  rms_to_dbfs log10 a = f32_mul f32_twenty (log10 (f32_max a MIN_RMS)) /\
  ((a = S754_nan \/ f32_lt a MIN_RMS = true) ->
     rms_to_dbfs log10 a = rms_to_dbfs log10 MIN_RMS /\
     rms_to_dbfs log10 a = f32_mul f32_twenty (log10 MIN_RMS)) /\
  (a <> S754_nan -> f32_lt a MIN_RMS = false ->
     rms_to_dbfs log10 a = f32_mul f32_twenty (log10 a)) /\
  (valid_binary prec32 emax32 MIN_RMS = true /\
   (2 * Z.abs (14411519 * 10 ^ 10 - 2 ^ 57) < 10 ^ 10)%Z).
Proof.
  unfold rms_to_dbfs. refine (conj eq_refl (conj _ (conj _ _))).
  - intros [->|Hlt]; [split; reflexivity|].
    destruct a; try discriminate Hlt; unfold f32_max; rewrite Hlt; split; reflexivity.
  - intros Hn Hlt. destruct a; try congruence; unfold f32_max; rewrite Hlt; reflexivity.
  - split; [reflexivity|]. vm_compute. reflexivity.
Qed.

(** ** C7: an all-zero chunk lands exactly on the floor *)

Lemma fold_add_pos_zeros xs :
  Forall (fun x => x = S754_zero false) xs ->
  fold_left f64_add xs (S754_zero false) = S754_zero false.
Proof. induction 1 as [|x xs -> _ IH]; [reflexivity|exact IH]. Qed.

Lemma calculate_rms_zeros (chunk : list f32) :
  Forall (fun s => exists b, s = S754_zero b) chunk -> (len chunk <= usize_max)%N ->
  calculate_rms chunk = f32_zero.
Proof.
  intros Hz Hlen. destruct chunk as [|x xs]; [reflexivity|].
  rewrite calculate_rms_nonempty by discriminate.
  destruct (usize_to_f64_exact (len (x :: xs))) as [m [e [Hn _]]];
    [unfold len; simpl; lia|exact Hlen|].
  rewrite Hn. inversion Hz as [|? ? [b ->] Hxs]; subst.
  unfold f64_sum. rewrite map_cons. cbn [fold_left].
  assert (Hsq : f64_add (S754_zero true) (f64_mul (f32_to_f64 (S754_zero b)) (f32_to_f64 (S754_zero b)))
                = S754_zero false) by (destruct b; reflexivity).
  rewrite Hsq, fold_add_pos_zeros; [reflexivity|].
  apply Forall_map. eapply Forall_impl; [|exact Hxs].
  intros s [b' ->]. destruct b'; reflexivity.
Qed.

(** C7: for every chunk of zeros (+0.0 or -0.0, of any length up to
    [usize::MAX], the empty chunk included), the decibel value is exactly the
    floor [20 * log10 MIN_RMS], the value [rms_to_dbfs MIN_RMS]: [log10] is
    applied to [MIN_RMS], never to 0, so the result is not [-inf] unless
    [log10 MIN_RMS] is.  When [log10 MIN_RMS] is [-10.0] (the binary32
    nearest to [log10 1e-10]) the floor is [-200.0], and the buffer
    [[0.0, 0.0, 0.0]] with chunk size 3 gives [[-200.0]]. *)
Theorem all_zero_chunk_floor (p : profile) (log10 : f32 -> f32) (chunk : list f32) :
  Forall (fun s => exists b, s = S754_zero b) chunk -> (len chunk <= usize_max)%N ->
  calculate_rms chunk = f32_zero /\
  rms_to_dbfs log10 (calculate_rms chunk) = rms_to_dbfs log10 MIN_RMS /\
  rms_to_dbfs log10 (calculate_rms chunk) = f32_mul f32_twenty (log10 MIN_RMS) /\
  (log10 MIN_RMS = f32_neg (f32_lit 10 0) ->
     rms_to_dbfs log10 (calculate_rms chunk) = f32_neg (f32_lit 200 0) /\
     f32_neg (f32_lit 200 0) <> S754_infinity true /\
     analyze_audio_rms p log10 [f32_zero; f32_zero; f32_zero] 3 = Some [f32_neg (f32_lit 200 0)]).
Proof.
  intros Hz Hlen. rewrite (calculate_rms_zeros chunk Hz Hlen).
  refine (conj eq_refl (conj eq_refl (conj eq_refl _))).
  intros Hl. unfold rms_to_dbfs at 1. simpl f32_max. rewrite Hl.
  split; [vm_compute; reflexivity|]. split; [discriminate|].
  rewrite analyze_audio_rms_nonempty by (vm_compute; discriminate).
  replace (capacity_overflows p (len [f32_zero; f32_zero; f32_zero]) 3) with false
    by (destruct p; reflexivity).
  change (spec_partition (N.to_nat 3) [f32_zero; f32_zero; f32_zero])
    with [[f32_zero; f32_zero; f32_zero]].
  simpl map. unfold chunk_dbfs.
  rewrite calculate_rms_zeros
    by (first [vm_compute; discriminate
              | repeat (apply Forall_cons; [eexists; reflexivity|]); apply Forall_nil]).
  unfold rms_to_dbfs. simpl f32_max. rewrite Hl. reflexivity.
Qed.

Lemma all_zero_chunk_floor_witness :
  rms_to_dbfs (fun _ => f32_neg (f32_lit 10 0)) (calculate_rms [S754_zero true; f32_zero])
    = f32_neg (f32_lit 200 0) /\
  analyze_audio_rms Debug (fun _ => f32_neg (f32_lit 10 0)) [f32_zero; f32_zero; f32_zero] 3
    = Some [f32_neg (f32_lit 200 0)].
Proof.
  assert (Hz : Forall (fun s => exists b, s = S754_zero b) [S754_zero true; f32_zero])
    by (repeat (apply Forall_cons; [eexists; reflexivity|]); apply Forall_nil).
  assert (Hlen : (len [S754_zero true; f32_zero] <= usize_max)%N) by (vm_compute; discriminate).
  destruct (all_zero_chunk_floor Debug (fun _ => f32_neg (f32_lit 10 0)) _ Hz Hlen)
    as [_ [_ [_ H]]].
  destruct (H eq_refl) as [H1 [_ H2]]. split; [exact H1|exact H2].
Defined.

(** ** Values of floats, and monotonicity of rounding

    The exact real value of a finite float [m * 2^e] and the position of an
    exact result between two neighbouring grid points ([inbetween]) give the
    facts the remaining claims need: rounding ([binary_round_aux]) is monotone
    and produces canonical ([valid_binary]) floats. *)

Definition bpow (e : Z) : R := powerRZ 2 e.

Lemma bpow_pos e : (0 < bpow e)%R.
Proof. apply powerRZ_lt. lra. Qed.

Lemma bpow_add a b : bpow (a + b) = (bpow a * bpow b)%R.
Proof. apply powerRZ_add. lra. Qed.

Lemma bpow_IZR k : (0 <= k)%Z -> bpow k = IZR (2 ^ k).
Proof.
  intros Hk. destruct k as [|p|p]; [reflexivity| |lia].
  unfold bpow. rewrite <- Zpower_pos_powerRZ. reflexivity.
Qed.

Lemma bpow_1 : bpow 1 = 2%R.
Proof. rewrite bpow_IZR by lia. reflexivity. Qed.

Lemma bpow_succ e : bpow (e + 1) = (2 * bpow e)%R.
Proof. rewrite bpow_add, bpow_1. lra. Qed.

Lemma bpow_le a b : (a <= b)%Z -> (bpow a <= bpow b)%R.
Proof.
  intros H. replace b with (a + (b - a))%Z by lia. rewrite bpow_add, (bpow_IZR (b - a)) by lia.
  pose proof (bpow_pos a).
  assert (1 <= IZR (2 ^ (b - a)))%R.
  { apply IZR_le. assert (0 < 2 ^ (b - a))%Z by (apply Z.pow_pos_nonneg; lia). lia. }
  nra.
Qed.

Lemma bpow_lt a b : (a < b)%Z -> (bpow a < bpow b)%R.
Proof.
  intros H. replace b with ((a + 1) + (b - (a + 1)))%Z by lia.
  rewrite bpow_add. pose proof (bpow_le 0 (b - (a + 1))) as H0.
  rewrite bpow_succ. change (bpow 0) with 1%R in H0. pose proof (bpow_pos a).
  assert (1 <= bpow (b - (a + 1)))%R by (apply H0; lia). nra.
Qed.

Lemma bpow_lt_inv a b : (bpow a < bpow b)%R -> (a < b)%Z.
Proof.
  intros H. destruct (Z.lt_ge_cases a b) as [|Hge]; [assumption|].
  apply bpow_le in Hge. lra.
Qed.

Lemma bpow_le_inv a b : (bpow a <= bpow b)%R -> (a <= b)%Z.
Proof.
  intros H. destruct (Z.le_gt_cases a b) as [|Hgt]; [assumption|].
  apply bpow_lt in Hgt. lra.
Qed.

Lemma Zdigits2_pos_eq p : Zdigits2 (Zpos p) = Zpos (Pos.size p).
Proof. simpl. rewrite digits2_pos_size. reflexivity. Qed.

Lemma Zdigits2_nonneg n : (0 <= Zdigits2 n)%Z.
Proof. destruct n; simpl; lia. Qed.

Lemma Zdigits2_bounds n : (0 < n)%Z ->
  (1 <= Zdigits2 n /\ 2 ^ (Zdigits2 n - 1) <= n < 2 ^ Zdigits2 n)%Z.
Proof.
  intros Hn. destruct n as [|p|p]; try lia. rewrite Zdigits2_pos_eq.
  pose proof (size_bound p). lia.
Qed.

Lemma Zdigits2_unique n k : (0 < n)%Z -> (2 ^ (k - 1) <= n < 2 ^ k)%Z -> Zdigits2 n = k.
Proof.
  intros Hn [H1 H2]. destruct (Zdigits2_bounds n Hn) as [Hd [H3 H4]].
  assert (0 < k)%Z.
  { destruct (Z.le_gt_cases k 0) as [Hk|]; [|lia].
    rewrite (Z.pow_neg_r 2 (k - 1)) in H1 by lia.
    assert (2 ^ k <= 1)%Z.
    { destruct (Z.eq_dec k 0) as [->|]; [simpl; lia|rewrite Z.pow_neg_r by lia; lia]. }
    lia. }
  assert (k - 1 < Zdigits2 n)%Z by (apply (Z.pow_lt_mono_r_iff 2); lia).
  assert (Zdigits2 n - 1 < k)%Z by (apply (Z.pow_lt_mono_r_iff 2); lia).
  lia.
Qed.

Lemma Zdigits2_mono a b : (0 < a <= b)%Z -> (Zdigits2 a <= Zdigits2 b)%Z.
Proof.
  intros H. destruct (Zdigits2_bounds a) as [Ha [Ha1 Ha2]]; [lia|].
  destruct (Zdigits2_bounds b) as [Hb [Hb1 Hb2]]; [lia|].
  assert (Zdigits2 a - 1 < Zdigits2 b)%Z by (apply (Z.pow_lt_mono_r_iff 2); lia).
  lia.
Qed.

Lemma Zdigits2_div n d : (0 < n)%Z -> (0 <= d)%Z -> (d < Zdigits2 n)%Z ->
  Zdigits2 (n / 2 ^ d) = (Zdigits2 n - d)%Z.
Proof.
  intros Hn Hd Hlt. destruct (Zdigits2_bounds n Hn) as [H1 [H2 H3]].
  assert (Hp : (0 < 2 ^ d)%Z) by (apply Z.pow_pos_nonneg; lia).
  assert (Hs : (2 ^ (Zdigits2 n - 1) = 2 ^ (Zdigits2 n - d - 1) * 2 ^ d)%Z)
    by (rewrite <- Z.pow_add_r by lia; f_equal; lia).
  assert (Hs' : (2 ^ Zdigits2 n = 2 ^ (Zdigits2 n - d) * 2 ^ d)%Z)
    by (rewrite <- Z.pow_add_r by lia; f_equal; lia).
  apply Zdigits2_unique.
  - apply Z.div_str_pos. split; [lia|]. rewrite Hs in H2.
    assert (0 < 2 ^ (Zdigits2 n - d - 1))%Z by (apply Z.pow_pos_nonneg; lia). nia.
  - split.
    + apply Z.div_le_lower_bound; [lia|]. lia.
    + apply Z.div_lt_upper_bound; [lia|]. lia.
Qed.

Lemma Zdigits2_div_zero n d : (0 <= n)%Z -> (0 <= d)%Z -> (Zdigits2 n <= d)%Z -> (n / 2 ^ d = 0)%Z.
Proof.
  intros Hn Hd Hle. destruct (Z.eq_dec n 0) as [->|Hn0]; [reflexivity|].
  destruct (Zdigits2_bounds n) as [_ [_ H]]; [lia|].
  apply Z.div_small. split; [lia|].
  apply (Z.lt_le_trans _ _ _ H). apply Z.pow_le_mono_r; lia.
Qed.

Lemma Zdigits2_mul a b : (0 < a)%Z -> (0 < b)%Z ->
  (Zdigits2 a + Zdigits2 b - 1 <= Zdigits2 (a * b))%Z.
Proof.
  intros Ha Hb. destruct (Zdigits2_bounds a Ha) as [Ha0 [Ha1 Ha2]].
  destruct (Zdigits2_bounds b Hb) as [Hb0 [Hb1 Hb2]].
  destruct (Zdigits2_bounds (a * b)) as [_ [_ Hab]]; [lia|].
  assert (2 ^ (Zdigits2 a + Zdigits2 b - 2) <= a * b)%Z.
  { replace (Zdigits2 a + Zdigits2 b - 2)%Z with ((Zdigits2 a - 1) + (Zdigits2 b - 1))%Z by lia.
    rewrite Z.pow_add_r by lia. nia. }
  pose proof (Zdigits2_nonneg (a * b)).
  assert (Zdigits2 a + Zdigits2 b - 2 < Zdigits2 (a * b))%Z
    by (apply (Z.pow_lt_mono_r_iff 2); lia).
  lia.
Qed.


(** Real bounds from the digit count. *)
Lemma IZR_digits_bounds n : (0 < n)%Z ->
  (bpow (Zdigits2 n - 1) <= IZR n < bpow (Zdigits2 n))%R.
Proof.
  intros Hn. destruct (Zdigits2_bounds n Hn) as [H0 [H1 H2]].
  rewrite !bpow_IZR by lia. split; [apply IZR_le|apply IZR_lt]; lia.
Qed.

Definition loc_pos (c : comparison) (x mid : R) : Prop :=
  match c with
  | Lt => (x < mid)%R
  | Eq => x = mid
  | Gt => (mid < x)%R
  end.

(** [inbetween m e l x]: the exact value [x] lies in [[m * 2^e, (m + 1) * 2^e)],
    at the position relative to the midpoint that [l] records. *)
Definition inbetween (m e : Z) (l : location) (x : R) : Prop :=
  match l with
  | loc_Exact => x = (IZR m * bpow e)%R
  | loc_Inexact c =>
      (IZR m * bpow e < x < IZR (m + 1) * bpow e)%R /\ loc_pos c x ((IZR m + / 2) * bpow e)%R
  end.

Definition rec_inbetween (r : shr_record) (e : Z) (x : R) : Prop :=
  inbetween (shr_m r) e (loc_of_shr_record r) x.

Lemma inbetween_rec m e l x : inbetween m e l x <-> rec_inbetween (shr_record_of_loc m l) e x.
Proof. destruct l as [|[]]; reflexivity. Qed.

Lemma shr_1_inbetween r e x :
  (0 <= shr_m r)%Z -> rec_inbetween r e x -> rec_inbetween (shr_1 r) (e + 1) x.
Proof.
  destruct r as [m rb sb]. unfold rec_inbetween. simpl shr_m. intros Hm.
  pose proof (bpow_pos e) as HB.
  destruct m as [|[p|p|]|p]; try lia; simpl shr_1;
    destruct rb, sb; simpl; rewrite bpow_succ; set (B := bpow e) in *;
    rewrite ?(Pos2Z.inj_xO (Pos.succ p)), ?(Pos2Z.inj_xI p), ?(Pos2Z.inj_xO p),
      ?(Pos2Z.inj_succ p), ?(Pos2Z.inj_add p 1);
    rewrite ?plus_IZR, ?mult_IZR, ?succ_IZR; simpl IZR;
    try (set (P := IZR (Zpos p)) in *);
    intros; try lra.
Qed.

Lemma iter_shr_1_inbetween k r e x :
  (0 <= shr_m r)%Z -> rec_inbetween r e x -> rec_inbetween (Nat.iter k shr_1 r) (e + Z.of_nat k) x.
Proof.
  induction k as [|k IH]; intros Hm Hr.
  - rewrite Z.add_0_r. exact Hr.
  - rewrite Nat.iter_succ, Nat2Z.inj_succ.
    replace (e + Z.succ (Z.of_nat k))%Z with ((e + Z.of_nat k) + 1)%Z by lia.
    apply shr_1_inbetween; [|apply IH; assumption].
    rewrite iter_shr_1_m by exact Hm. apply Z.div_pos; [exact Hm|]. apply Z.pow_pos_nonneg; lia.
Qed.

Lemma shr_inbetween r e n x :
  (0 <= shr_m r)%Z -> rec_inbetween r e x ->
  rec_inbetween (fst (shr r e n)) (snd (shr r e n)) x /\
  snd (shr r e n) = Z.max e (e + n) /\
  shr_m (fst (shr r e n)) = (shr_m r / 2 ^ (Z.max 0 n))%Z.
Proof.
  intros Hm Hr. destruct n as [|p|p]; simpl fst; simpl snd.
  - rewrite Z.max_l by lia. simpl. rewrite Z.div_1_r. auto.
  - rewrite iter_pos_nat. rewrite <- positive_nat_Z at 1.
    split; [apply iter_shr_1_inbetween; assumption|].
    split; [lia|]. rewrite iter_shr_1_m by exact Hm. rewrite positive_nat_Z. reflexivity.
  - split; [exact Hr|]. split; [lia|]. simpl. rewrite Z.div_1_r. reflexivity.
Qed.

Lemma rne_bounds m l : (m <= round_nearest_even m l <= m + 1)%Z.
Proof. destruct l as [|[]]; simpl; try lia. destruct (Z.even m); lia. Qed.


Lemma binary_round_aux_opp prec emax m e l :
  binary_round_aux prec emax true m e l = SFopp (binary_round_aux prec emax false m e l).
Proof.
  unfold binary_round_aux. destruct (shr_fexp prec emax m e l) as [r E].
  destruct (shr_fexp prec emax _ E loc_Exact) as [r2 E2].
  destruct (shr_m r2); try destruct (Z.leb _ _); reflexivity.
Qed.

Lemma SFleb_opp x y : SFleb (SFopp x) (SFopp y) = SFleb y x.
Proof.
  destruct x as [[]|[]| |[] mx ex], y as [[]|[]| |[] my ey]; try reflexivity;
    unfold SFleb, SFcompare; simpl;
    change (PosDef.Pos.compare_cont Eq) with Pos.compare;
    change (Pos.compare_cont Eq) with Pos.compare;
    (destruct (Z.compare_spec ex ey) as [<-|H|H];
     [rewrite ?Z.compare_refl
     |rewrite ?(proj2 (Z.compare_lt_iff ex ey) H), ?(proj2 (Z.compare_gt_iff ey ex) H)
     |rewrite ?(proj2 (Z.compare_gt_iff ex ey) H), ?(proj2 (Z.compare_lt_iff ey ex) H)]);
    simpl; try reflexivity;
    (destruct (Pos.compare_spec mx my) as [<-|H'|H'];
     [rewrite ?Pos.compare_refl
     |rewrite ?(proj2 (Pos.compare_lt_iff mx my) H'), ?(proj2 (Pos.compare_gt_iff my mx) H')
     |rewrite ?(proj2 (Pos.compare_gt_iff mx my) H'), ?(proj2 (Pos.compare_lt_iff my mx) H')]);
    reflexivity.
Qed.

Lemma SFleb_signs x y : signed_number true x -> signed_number false y -> SFleb x y = true.
Proof. destruct x as [[]|[]| |[] mx ex], y as [[]|[]| |[] my ey]; simpl; intros; first [reflexivity | discriminate | contradiction | congruence]. Qed.

Lemma SFleb_inf_r x : x <> S754_nan -> SFleb x (S754_infinity false) = true.
Proof. destruct x as [[]|[]| |[] mx ex]; simpl; intros; first [reflexivity | discriminate | contradiction | congruence]. Qed.

Lemma SFleb_ninf_l x : x <> S754_nan -> SFleb (S754_infinity true) x = true.
Proof. destruct x as [[]|[]| |[] mx ex]; simpl; intros; first [reflexivity | discriminate | contradiction | congruence]. Qed.

Lemma SFleb_zero_l s x : signed_number false x -> SFleb (S754_zero s) x = true.
Proof. destruct x as [[]|[]| |[] mx ex]; simpl; intros; first [reflexivity | discriminate | contradiction | congruence]. Qed.

Lemma SFleb_zero_r s x : signed_number true x -> SFleb x (S754_zero s) = true.
Proof. destruct x as [[]|[]| |[] mx ex]; simpl; intros; first [reflexivity | discriminate | contradiction | congruence]. Qed.

Lemma signed_not_nan s x : signed_number s x -> x <> S754_nan.
Proof. destruct x; simpl; intros; first [reflexivity | discriminate | contradiction | congruence]. Qed.

(** The order [SFleb] on numbers is the lexicographic order of a key: class
    ([-inf], negative, zero, positive, [+inf]), then exponent, then mantissa,
    reversed on negative numbers. *)
Definition sf_key (x : spec_float) : Z * Z * Z :=
  match x with
  | S754_infinity true => (-2, 0, 0)%Z
  | S754_finite true m e => (-1, - e, - Zpos m)%Z
  | S754_zero _ | S754_nan => (0, 0, 0)%Z
  | S754_finite false m e => (1, e, Zpos m)%Z
  | S754_infinity false => (2, 0, 0)%Z
  end.

Definition lex_le (a b : Z * Z * Z) : Prop :=
  let '(a1, a2, a3) := a in let '(b1, b2, b3) := b in
  (a1 < b1 \/ a1 = b1 /\ (a2 < b2 \/ a2 = b2 /\ a3 <= b3))%Z.

Lemma SFleb_key x y : x <> S754_nan -> y <> S754_nan -> (SFleb x y = true <-> lex_le (sf_key x) (sf_key y)).
Proof.
  intros Hx Hy.
  destruct x as [[]|[]| |[] mx ex], y as [[]|[]| |[] my ey]; try congruence;
    unfold SFleb, SFcompare, sf_key, lex_le; simpl;
    change (PosDef.Pos.compare_cont Eq) with Pos.compare;
    change (Pos.compare_cont Eq) with Pos.compare;
    try (split; [intros; lia|reflexivity]); try (split; [discriminate|lia]);
    (destruct (Z.compare_spec ex ey) as [<-|H|H]);
    try (split; [intros; lia|reflexivity]); try (split; [discriminate|lia]);
    (destruct (Pos.compare_spec mx my) as [<-|H'|H']); simpl;
    try (split; [intros; lia|reflexivity]); try (split; [discriminate|lia]).
Qed.

Lemma SFleb_trans x y z : SFleb x y = true -> SFleb y z = true -> SFleb x z = true.
Proof.
  intros H1 H2.
  assert (Hx : x <> S754_nan) by (intros ->; discriminate).
  assert (Hy : y <> S754_nan) by (intros ->; destruct x; discriminate).
  assert (Hz : z <> S754_nan) by (intros ->; destruct y; discriminate).
  apply SFleb_key in H1, H2; try assumption. apply SFleb_key; try assumption.
  destruct (sf_key x) as [[a1 a2] a3], (sf_key y) as [[b1 b2] b3], (sf_key z) as [[c1 c2] c3].
  simpl in *. lia.
Qed.

Lemma SFleb_refl x : x <> S754_nan -> SFleb x x = true.
Proof.
  intros Hx. apply SFleb_key; try assumption.
  destruct (sf_key x) as [[a1 a2] a3]. simpl. lia.
Qed.

Lemma SFleb_not_nan_l x y : SFleb x y = true -> x <> S754_nan.
Proof. intros H ->. discriminate. Qed.

Lemma SFleb_not_nan_r x y : SFleb x y = true -> y <> S754_nan.
Proof. intros H ->. destruct x; discriminate. Qed.

Section RoundTheory.
Variables prec emax : Z.
Hypothesis Hprec : (0 < prec)%Z.
Hypothesis Hemax : (prec < emax)%Z.

Let fexp := fexp prec emax.
Let emin := emin prec emax.

Lemma shr_fexp_inbetween m e l x :
  (0 <= m)%Z -> inbetween m e l x ->
  let '(r, e') := shr_fexp prec emax m e l in
  rec_inbetween r e' x /\ e' = Z.max e (fexp (Zdigits2 m + e)) /\
  shr_m r = (m / 2 ^ (e' - e))%Z.
Proof.
  intros Hm Hx. unfold shr_fexp.
  apply inbetween_rec in Hx.
  destruct (shr_inbetween (shr_record_of_loc m l) e (SpecFloat.fexp prec emax (Zdigits2 m + e) - e) x)
    as [H1 [H2 H3]]; [rewrite shr_record_of_loc_m; exact Hm|exact Hx|].
  destruct (shr _ _ _) as [r e'] eqn:Hs. simpl in H1, H2, H3.
  rewrite shr_record_of_loc_m in H3. subst e'.
  split; [exact H1|]. split; [unfold fexp; lia|].
  rewrite H3. f_equal. f_equal. lia.
Qed.

Lemma emin_neg : (emin <= 0)%Z.
Proof. unfold emin, SpecFloat.emin. lia. Qed.

Lemma fexp_ge a : (a - prec <= fexp a /\ emin <= fexp a)%Z.
Proof. unfold fexp, SpecFloat.fexp. fold emin. lia. Qed.

Lemma fexp_cases a : (fexp a = a - prec /\ emin <= a - prec \/ fexp a = emin /\ a - prec <= emin)%Z.
Proof. unfold fexp, SpecFloat.fexp. fold emin. lia. Qed.

Lemma fexp_mono a b : (a <= b)%Z -> (fexp a <= fexp b)%Z.
Proof. unfold fexp, SpecFloat.fexp. lia. Qed.

Lemma fexp_succ a : (fexp (a + 1) <= fexp a + 1)%Z.
Proof. unfold fexp, SpecFloat.fexp. lia. Qed.

(** The condition under which [binary_round_aux] rounds at the canonical
    exponent: the input is not finer than it. *)
Definition round_input_ok (m e : Z) : Prop := (e <= fexp (Zdigits2 m + e))%Z.

(** The first stage: shifting to the canonical exponent [E]. *)
Lemma first_stage m e l x :
  (0 <= m)%Z -> inbetween m e l x -> round_input_ok m e ->
  let '(r, E) := shr_fexp prec emax m e l in
  E = fexp (Zdigits2 m + e) /\ rec_inbetween r E x /\ (0 <= shr_m r)%Z /\
  fexp (Zdigits2 (shr_m r) + E) = E /\ shr_m r = (m / 2 ^ (E - e))%Z.
Proof.
  intros Hm Hx Hok. pose proof (shr_fexp_inbetween m e l x Hm Hx) as H.
  destruct (shr_fexp prec emax m e l) as [r E]. destruct H as [H1 [H2 H3]].
  unfold round_input_ok in Hok. fold fexp in H2.
  assert (HE : E = fexp (Zdigits2 m + e)) by lia.
  assert (Hd : (0 <= E - e)%Z) by lia.
  assert (Hp : (0 < 2 ^ (E - e))%Z) by (apply Z.pow_pos_nonneg; lia).
  split; [exact HE|]. split; [exact H1|]. split; [rewrite H3; apply Z.div_pos; lia|].
  split; [|exact H3].
  destruct (Z.eq_dec m 0) as [->|Hm0].
  - rewrite H3, Z.div_0_l by lia. rewrite HE. simpl Zdigits2 in *.
    unfold fexp, SpecFloat.fexp in *. lia.
  - destruct (Z.lt_ge_cases (E - e) (Zdigits2 m)) as [Hlt|Hge].
    + rewrite H3, Zdigits2_div by lia.
      replace (Zdigits2 m - (E - e) + E)%Z with (Zdigits2 m + e)%Z by lia. symmetry; exact HE.
    + rewrite H3, Zdigits2_div_zero by lia. simpl Zdigits2.
      destruct (fexp_cases (Zdigits2 m + e)) as [[Hf _]|[Hf Hf']]; [lia|].
      rewrite HE, Hf. unfold fexp, SpecFloat.fexp. fold emin. lia.
Qed.

Lemma Zdigits2_le_succ a b : (0 <= a)%Z -> (0 < b <= a + 1)%Z -> (Zdigits2 b <= Zdigits2 a + 1)%Z.
Proof.
  intros Ha Hb. destruct (Z.eq_dec a 0) as [->|Ha0]; [assert (b = 1)%Z by lia; subst; simpl; lia|].
  destruct (Zdigits2_bounds a) as [Hd [H1 H2]]; [lia|].
  destruct (Zdigits2_bounds b) as [Hd' [H1' H2']]; [lia|].
  assert (b <= 2 ^ Zdigits2 a)%Z by lia.
  assert (Zdigits2 b - 1 < Zdigits2 a + 1)%Z.
  { apply (Z.pow_lt_mono_r_iff 2); try lia.
    rewrite Z.pow_add_r by lia. lia. }
  lia.
Qed.

(** The second stage: the carry of the rounding renormalises exactly. *)
Lemma second_stage m1 R E :
  (0 <= m1)%Z -> (m1 <= R <= m1 + 1)%Z -> fexp (Zdigits2 m1 + E) = E ->
  let '(r, E2) := shr_fexp prec emax R E loc_Exact in
  (E <= E2 <= E + 1)%Z /\ (shr_m r * 2 ^ (E2 - E) = R)%Z /\ (0 <= shr_m r)%Z /\
  (0 < shr_m r -> fexp (Zdigits2 (shr_m r) + E2) = E2)%Z.
Proof.
  intros Hm1 HR Hc.
  assert (HR0 : (0 <= R)%Z) by lia.
  pose proof (shr_fexp_inbetween R E loc_Exact (IZR R * bpow E)%R HR0 eq_refl) as H.
  destruct (shr_fexp prec emax R E loc_Exact) as [r E2]. destruct H as [_ [H2 H3]].
  fold fexp in H2.
  destruct (Z.eq_dec R 0) as [HR'|HR'].
  - subst R. rewrite Z.div_0_l in H3 by (apply Z.pow_nonzero; lia). rewrite H3.
    simpl Zdigits2 in H2. pose proof (fexp_ge E). pose proof (fexp_ge (Zdigits2 m1 + E)).
    assert (m1 = 0)%Z by lia. subst m1. simpl Zdigits2 in Hc.
    split; [lia|]. split; [lia|]. split; lia.
  - assert (HdR : (Zdigits2 R <= Zdigits2 m1 + 1)%Z) by (apply Zdigits2_le_succ; lia).
    assert (HdR' : (Zdigits2 m1 <= Zdigits2 R)%Z).
    { destruct (Z.eq_dec m1 0) as [->|]; [apply Zdigits2_nonneg|apply Zdigits2_mono; lia]. }
    assert (Hf1 : (fexp (Zdigits2 R + E) <= E + 1)%Z).
    { pose proof (fexp_mono (Zdigits2 R + E) (Zdigits2 m1 + E + 1)) as Hm.
      pose proof (fexp_succ (Zdigits2 m1 + E)). lia. }
    assert (Hf2 : (E <= fexp (Zdigits2 R + E))%Z).
    { rewrite <- Hc at 1. apply fexp_mono. lia. }
    destruct (Z.eq_dec E2 E) as [HE|HE].
    + rewrite HE in H3 |- *. rewrite Z.sub_diag, Z.pow_0_r, Z.div_1_r in H3. rewrite H3, Z.sub_diag, Z.mul_1_r.
      split; [lia|]. split; [reflexivity|]. split; [lia|]. intros _. lia.
    + assert (HE2 : E2 = (E + 1)%Z) by lia. rewrite HE2 in H3 |- *.
      assert (Hf3 : fexp (Zdigits2 R + E) = (E + 1)%Z) by lia.
      pose proof (fexp_ge E) as [_ HeminE].
      assert (HE' : E = fexp (Zdigits2 m1 + E)) by lia.
      pose proof (fexp_ge (Zdigits2 m1 + E)) as [_ HeminE2].
      destruct (fexp_cases (Zdigits2 R + E)) as [[Hr1 _]|[Hr1 _]]; [|lia].
      assert (HdRv : Zdigits2 R = (prec + 1)%Z) by lia.
      assert (Hdm1 : Zdigits2 m1 = prec).
      { destruct (fexp_cases (Zdigits2 m1 + E)) as [[Hq _]|[Hq Hq']]; lia. }
      destruct (Zdigits2_bounds R) as [_ [HR1 HR2]]; [lia|].
      assert (Hm1pos : (0 < m1)%Z).
      { destruct (Z.eq_dec m1 0) as [->|]; [simpl in Hdm1; lia|lia]. }
      destruct (Zdigits2_bounds m1) as [_ [Hm1a Hm1b]]; [lia|].
      rewrite HdRv, Z.add_simpl_r in HR1. rewrite Hdm1 in Hm1b.
      assert (HRv : R = (2 ^ prec)%Z) by lia.
      replace (E + 1 - E)%Z with 1%Z in H3 |- * by lia.
      assert (Hsr : shr_m r = (2 ^ (prec - 1))%Z).
      { rewrite H3, HRv. replace prec with ((prec - 1) + 1)%Z at 1 by lia.
        rewrite Z.pow_add_r, Z.pow_1_r by lia. apply Z.div_mul. lia. }
      assert (Hp1 : (0 < 2 ^ (prec - 1))%Z) by (apply Z.pow_pos_nonneg; lia).
      split; [lia|]. split.
      { rewrite Hsr, HRv, Z.pow_1_r. replace prec with ((prec - 1) + 1)%Z at 2 by lia.
        rewrite Z.pow_add_r, Z.pow_1_r by lia. reflexivity. }
      split; [lia|]. intros _.
      assert (Hd : Zdigits2 (2 ^ (prec - 1)) = prec).
      { apply Zdigits2_unique; [lia|]. split; [lia|]. apply Z.pow_lt_mono_r; lia. }
      rewrite Hsr, Hd. rewrite <- Hf3 in HE2. unfold fexp, SpecFloat.fexp in *. lia.
Qed.

Lemma inbetween_bounds m e l x :
  inbetween m e l x -> (IZR m * bpow e <= x < IZR (m + 1) * bpow e)%R.
Proof.
  pose proof (bpow_pos e). destruct l as [|c]; simpl.
  - intros ->. rewrite plus_IZR. lra.
  - intros [Hb _]. lra.
Qed.

Lemma canon_lower m e : (0 < m)%Z -> (bpow (Zdigits2 m - 1 + e) <= IZR m * bpow e)%R.
Proof.
  intros Hm. destruct (IZR_digits_bounds m Hm). rewrite bpow_add.
  apply Rmult_le_compat_r; [left; apply bpow_pos|lra].
Qed.

Lemma canon_upper m e : (0 <= m)%Z -> (IZR (m + 1) * bpow e <= bpow (Zdigits2 m + e))%R.
Proof.
  intros Hm. rewrite bpow_add. apply Rmult_le_compat_r; [left; apply bpow_pos|].
  destruct (Z.eq_dec m 0) as [->|Hm0]; [change (Zdigits2 0) with 0%Z; unfold bpow; simpl; lra|].
  destruct (Zdigits2_bounds m) as [H0 [H1 H2]]; [lia|].
  rewrite bpow_IZR by lia. apply IZR_le. lia.
Qed.

Lemma canon_zero_exp e : fexp (Zdigits2 0 + e) = e -> e = emin.
Proof. simpl Zdigits2. unfold fexp, SpecFloat.fexp. fold emin. lia. Qed.

Lemma canon_digits m e : fexp (Zdigits2 m + e) = e -> (Zdigits2 m <= prec)%Z /\ (emin <= e)%Z.
Proof. unfold fexp, SpecFloat.fexp. fold emin. lia. Qed.

Lemma canon_big m e : fexp (Zdigits2 m + e) = e -> (emin < e)%Z -> Zdigits2 m = prec.
Proof. unfold fexp, SpecFloat.fexp. fold emin. lia. Qed.

Definition canon_in (m e : Z) (l : location) (x : R) : Prop :=
  (0 <= m)%Z /\ inbetween m e l x /\ fexp (Zdigits2 m + e) = e.

Lemma canon_exp_mono m1 e1 l1 x1 m2 e2 l2 x2 :
  canon_in m1 e1 l1 x1 -> canon_in m2 e2 l2 x2 -> (x1 <= x2)%R -> (e1 <= e2)%Z.
Proof.
  intros [Hm1 [Hi1 Hc1]] [Hm2 [Hi2 Hc2]] Hx.
  apply inbetween_bounds in Hi1. apply inbetween_bounds in Hi2.
  destruct (canon_digits _ _ Hc2) as [Hd2 He2].
  destruct (Z.eq_dec m1 0) as [->|Hm10]; [apply canon_zero_exp in Hc1; lia|].
  pose proof (canon_lower m1 e1 ltac:(lia)) as L1.
  pose proof (canon_upper m2 e2 Hm2) as U2.
  assert (Hlt : (Zdigits2 m1 - 1 + e1 < Zdigits2 m2 + e2)%Z) by (apply bpow_lt_inv; lra).
  rewrite <- Hc1, <- Hc2. apply fexp_mono. lia.
Qed.

Lemma rne_same_exp m1 m2 e l1 l2 x1 x2 :
  inbetween m1 e l1 x1 -> inbetween m2 e l2 x2 -> (x1 <= x2)%R ->
  (round_nearest_even m1 l1 <= round_nearest_even m2 l2)%Z.
Proof.
  intros Hi1 Hi2 Hx.
  pose proof (rne_bounds m1 l1). pose proof (rne_bounds m2 l2).
  pose proof (bpow_pos e) as HB.
  assert (Hle : (m1 <= m2)%Z).
  { destruct (Z.le_gt_cases m1 m2) as [|Hg]; [assumption|exfalso].
    apply inbetween_bounds in Hi1. apply inbetween_bounds in Hi2.
    assert (IZR (m2 + 1) <= IZR m1)%R by (apply IZR_le; lia).
    assert (IZR (m2 + 1) * bpow e <= IZR m1 * bpow e)%R by (apply Rmult_le_compat_r; lra).
    lra. }
  destruct (Z.eq_dec m1 m2) as [<-|Hne]; [|lia].
  destruct l1 as [|[]], l2 as [|[]]; simpl in *; try lia;
    destruct (Z.even m1); try lia; exfalso;
    repeat match goal with H : _ /\ _ |- _ => destruct H end;
    rewrite ?plus_IZR in *; simpl IZR in *; try nra.
Qed.

Lemma canon_value_mono m1 e1 l1 x1 m2 e2 l2 x2 :
  canon_in m1 e1 l1 x1 -> canon_in m2 e2 l2 x2 -> (x1 <= x2)%R ->
  (IZR (round_nearest_even m1 l1) * bpow e1 <= IZR (round_nearest_even m2 l2) * bpow e2)%R.
Proof.
  intros C1 C2 Hx. pose proof (canon_exp_mono _ _ _ _ _ _ _ _ C1 C2 Hx) as He.
  destruct C1 as [Hm1 [Hi1 Hc1]], C2 as [Hm2 [Hi2 Hc2]].
  pose proof (rne_bounds m1 l1). pose proof (rne_bounds m2 l2).
  destruct (Z.eq_dec e1 e2) as [<-|Hne].
  - apply Rmult_le_compat_r; [left; apply bpow_pos|]. apply IZR_le.
    eapply rne_same_exp; eassumption.
  - destruct (canon_digits _ _ Hc1) as [Hd1 He1].
    destruct (Z.eq_dec m2 0) as [->|Hm20]; [apply canon_zero_exp in Hc2; lia|].
    assert (Hd2 : Zdigits2 m2 = prec) by (apply (canon_big m2 e2); [exact Hc2|lia]).
    apply Rle_trans with (bpow (Zdigits2 m1 + e1)).
    + apply Rle_trans with (IZR (m1 + 1) * bpow e1)%R; [|apply canon_upper; exact Hm1].
      apply Rmult_le_compat_r; [left; apply bpow_pos|]. apply IZR_le. lia.
    + apply Rle_trans with (IZR m2 * bpow e2)%R.
      * apply Rle_trans with (bpow (Zdigits2 m2 - 1 + e2)); [apply bpow_le; lia|].
        apply canon_lower. lia.
      * apply Rmult_le_compat_r; [left; apply bpow_pos|]. apply IZR_le. lia.
Qed.

(** The value [binary_round_aux] rounds to, before the overflow test. *)
Definition rnd_val (m e : Z) (l : location) : R :=
  let '(r, E) := shr_fexp prec emax m e l in
  (IZR (round_nearest_even (shr_m r) (loc_of_shr_record r)) * bpow E)%R.

Lemma round_aux_spec s m e l x :
  (0 <= m)%Z -> inbetween m e l x -> round_input_ok m e ->
  (0 <= rnd_val m e l)%R /\
  ((binary_round_aux prec emax s m e l = S754_zero s /\ rnd_val m e l = 0%R) \/
   (exists m' e', binary_round_aux prec emax s m e l = S754_finite s m' e' /\
      bounded prec emax m' e' = true /\ rnd_val m e l = (IZR (Zpos m') * bpow e')%R /\
      (0 < rnd_val m e l < bpow emax)%R) \/
   (binary_round_aux prec emax s m e l = S754_infinity s /\ (bpow emax <= rnd_val m e l)%R)).
Proof.
  intros Hm Hi Hok. unfold binary_round_aux, rnd_val.
  pose proof (first_stage m e l x Hm Hi Hok) as H1.
  destruct (shr_fexp prec emax m e l) as [r E].
  destruct H1 as [_ [_ [Hm' [Hc _]]]].
  set (R0 := round_nearest_even (shr_m r) (loc_of_shr_record r)).
  assert (HR0 : (shr_m r <= R0 <= shr_m r + 1)%Z) by apply rne_bounds.
  pose proof (second_stage (shr_m r) R0 E Hm' HR0 Hc) as H2.
  destruct (shr_fexp prec emax R0 E loc_Exact) as [r2 E2].
  destruct H2 as [HE2 [Hmul [Hnn Hc2]]].
  assert (HR0v : (IZR R0 * bpow E = IZR (shr_m r2) * bpow E2)%R).
  { rewrite <- Hmul, mult_IZR, <- (bpow_IZR (E2 - E)) by lia. rewrite Rmult_assoc, <- bpow_add.
    f_equal. f_equal. lia. }
  rewrite HR0v. pose proof (bpow_pos E2) as HB.
  destruct (shr_m r2) as [|p|p] eqn:Hr2; [| |lia].
  - split; [simpl; lra|]. left. split; [reflexivity|]. simpl. lra.
  - specialize (Hc2 ltac:(lia)).
    destruct (canon_digits _ _ Hc2) as [Hd He].
    pose proof (IZR_digits_bounds (Zpos p) ltac:(lia)) as [Hlo Hhi].
    split; [apply Rmult_le_pos; [apply IZR_le; lia|lra]|right].
    destruct (Z.leb_spec E2 (emax - prec)) as [Hb|Hb].
    + left. exists p, E2. split; [reflexivity|]. split.
      { unfold bounded, canonical_mantissa. apply andb_true_intro. split; [|apply Z.leb_le; lia].
        apply Z.eqb_eq. exact Hc2. }
      split; [reflexivity|]. split; [apply Rmult_lt_0_compat; [apply IZR_lt; lia|lra]|].
      apply Rlt_le_trans with (bpow (Zdigits2 (Zpos p) + E2)).
      * rewrite bpow_add. apply Rmult_lt_compat_r; lra.
      * apply bpow_le. lia.
    + right. split; [reflexivity|].
      assert (Hdp : Zdigits2 (Zpos p) = prec).
      { apply (canon_big _ _ Hc2). unfold emin, SpecFloat.emin. lia. }
      apply Rle_trans with (bpow (Zdigits2 (Zpos p) - 1 + E2)); [apply bpow_le; lia|].
      apply canon_lower. lia.
Qed.

Lemma rnd_val_mono m1 e1 l1 x1 m2 e2 l2 x2 :
  (0 <= m1)%Z -> inbetween m1 e1 l1 x1 -> round_input_ok m1 e1 ->
  (0 <= m2)%Z -> inbetween m2 e2 l2 x2 -> round_input_ok m2 e2 ->
  (x1 <= x2)%R -> (rnd_val m1 e1 l1 <= rnd_val m2 e2 l2)%R.
Proof.
  intros Hm1 Hi1 Hok1 Hm2 Hi2 Hok2 Hx. unfold rnd_val.
  pose proof (first_stage m1 e1 l1 x1 Hm1 Hi1 Hok1) as H1.
  pose proof (first_stage m2 e2 l2 x2 Hm2 Hi2 Hok2) as H2.
  destruct (shr_fexp prec emax m1 e1 l1) as [r1 E1], (shr_fexp prec emax m2 e2 l2) as [r2 E2].
  destruct H1 as [_ [Hr1 [Hp1 [Hc1 _]]]], H2 as [_ [Hr2 [Hp2 [Hc2 _]]]].
  apply (canon_value_mono _ _ _ x1 _ _ _ x2); try assumption; repeat split; assumption.
Qed.

Lemma canonical_Zdigits2 m e :
  canonical_mantissa prec emax m e = true -> fexp (Zdigits2 (Zpos m) + e) = e.
Proof. unfold canonical_mantissa. intros H. apply Z.eqb_eq in H. exact H. Qed.

Lemma canon_lt_exp m1 e1 m2 e2 :
  fexp (Zdigits2 (Zpos m1) + e1) = e1 -> fexp (Zdigits2 (Zpos m2) + e2) = e2 -> (e1 < e2)%Z ->
  (IZR (Zpos m1) * bpow e1 < IZR (Zpos m2) * bpow e2)%R.
Proof.
  intros Hc1 Hc2 He.
  destruct (canon_digits _ _ Hc1) as [Hd1 He1].
  assert (Hd2 : Zdigits2 (Zpos m2) = prec) by (apply (canon_big _ _ Hc2); lia).
  pose proof (IZR_digits_bounds (Zpos m1) ltac:(lia)) as [_ Hhi].
  apply Rlt_le_trans with (bpow (Zdigits2 (Zpos m1) + e1)).
  - rewrite bpow_add. apply Rmult_lt_compat_r; [apply bpow_pos|lra].
  - apply Rle_trans with (bpow (Zdigits2 (Zpos m2) - 1 + e2)); [apply bpow_le; lia|].
    apply canon_lower. lia.
Qed.

Lemma canon_leb m1 e1 m2 e2 :
  canonical_mantissa prec emax m1 e1 = true -> canonical_mantissa prec emax m2 e2 = true ->
  (SFleb (S754_finite false m1 e1) (S754_finite false m2 e2) = true <->
   (IZR (Zpos m1) * bpow e1 <= IZR (Zpos m2) * bpow e2)%R).
Proof.
  intros Hc1 Hc2. apply canonical_Zdigits2 in Hc1, Hc2.
  unfold SFleb, SFcompare. destruct (Z.compare_spec e1 e2) as [<-|Hlt|Hgt].
  - change (Pos.compare_cont Eq m1 m2) with (Pos.compare m1 m2).
    pose proof (bpow_pos e1). split.
    + intros Hle. apply Rmult_le_compat_r; [lra|]. apply IZR_le.
      destruct (Pos.compare_spec m1 m2); try lia; discriminate.
    + intros Hle. apply Rmult_le_reg_r in Hle; [|lra]. apply le_IZR in Hle.
      destruct (Pos.compare_spec m1 m2); try reflexivity; lia.
  - split; [intros _; left; apply canon_lt_exp; assumption|reflexivity].
  - split; [discriminate|]. intros Hle. exfalso.
    pose proof (canon_lt_exp m2 e2 m1 e1 Hc2 Hc1 Hgt). lra.
Qed.

Lemma round_aux_mono m1 e1 l1 x1 m2 e2 l2 x2 :
  (0 <= m1)%Z -> inbetween m1 e1 l1 x1 -> round_input_ok m1 e1 ->
  (0 <= m2)%Z -> inbetween m2 e2 l2 x2 -> round_input_ok m2 e2 ->
  (x1 <= x2)%R ->
  SFleb (binary_round_aux prec emax false m1 e1 l1) (binary_round_aux prec emax false m2 e2 l2) = true.
Proof.
  intros Hm1 Hi1 Hok1 Hm2 Hi2 Hok2 Hx.
  pose proof (rnd_val_mono _ _ _ _ _ _ _ _ Hm1 Hi1 Hok1 Hm2 Hi2 Hok2 Hx) as Hv. pose proof (bpow_pos emax).
  destruct (round_aux_spec false m1 e1 l1 x1 Hm1 Hi1 Hok1) as [_ H1].
  destruct (round_aux_spec false m2 e2 l2 x2 Hm2 Hi2 Hok2) as [_ H2].
  destruct H1 as [[-> Hv1]|[[p1 [f1 [-> [Hb1 [Hv1 Hr1]]]]]|[-> Hv1]]];
  destruct H2 as [[-> Hv2]|[[p2 [f2 [-> [Hb2 [Hv2 Hr2]]]]]|[-> Hv2]]];
  try reflexivity; try lra.
  unfold bounded in Hb1, Hb2. apply andb_prop in Hb1 as [Hc1 _], Hb2 as [Hc2 _].
  apply canon_leb; [exact Hc1|exact Hc2|]. lra.
Qed.

Lemma round_aux_valid s m e l x :
  (0 <= m)%Z -> inbetween m e l x -> round_input_ok m e ->
  valid_binary prec emax (binary_round_aux prec emax s m e l) = true /\
  binary_round_aux prec emax s m e l <> S754_nan.
Proof.
  intros Hm Hi Hok.
  destruct (round_aux_spec s m e l x Hm Hi Hok) as [_ [[-> _]|[[p [f [-> [Hb _]]]]|[-> _]]]];
    split; try reflexivity; try discriminate. exact Hb.
Qed.


Definition fval (m : positive) (e : Z) : R := (IZR (Zpos m) * bpow e)%R.

Lemma mul_input_ok mx ex my ey :
  canonical_mantissa prec emax mx ex = true -> canonical_mantissa prec emax my ey = true ->
  round_input_ok (Zpos (mx * my)) (ex + ey).
Proof.
  intros Hx Hy. apply canonical_Zdigits2 in Hx, Hy.
  destruct (canon_digits _ _ Hx) as [Hdx Hex].
  destruct (canon_digits _ _ Hy) as [Hdy Hey].
  pose proof (Zdigits2_mul (Zpos mx) (Zpos my) ltac:(lia) ltac:(lia)) as Hd.
  rewrite <- Pos2Z.inj_mul in Hd.
  pose proof (Zdigits2_bounds (Zpos mx) ltac:(lia)) as [Hx1 _].
  pose proof (Zdigits2_bounds (Zpos my) ltac:(lia)) as [Hy1 _].
  unfold round_input_ok.
  destruct (Z.eq_dec ex emin) as [Hx0|Hx0]; destruct (Z.eq_dec ey emin) as [Hy0|Hy0].
  - pose proof (fexp_ge (Zdigits2 (Zpos (mx * my)) + (ex + ey))) as [_ Hf].
    pose proof emin_neg. lia.
  - pose proof (canon_big _ _ Hy ltac:(lia)).
    pose proof (fexp_ge (Zdigits2 (Zpos (mx * my)) + (ex + ey))) as [Hf _]. lia.
  - pose proof (canon_big _ _ Hx ltac:(lia)).
    pose proof (fexp_ge (Zdigits2 (Zpos (mx * my)) + (ex + ey))) as [Hf _]. lia.
  - pose proof (canon_big _ _ Hx ltac:(lia)).
    pose proof (fexp_ge (Zdigits2 (Zpos (mx * my)) + (ex + ey))) as [Hf _]. lia.
Qed.

Lemma mul_exact mx ex my ey :
  inbetween (Zpos (mx * my)) (ex + ey) loc_Exact (fval mx ex * fval my ey)%R.
Proof. simpl. unfold fval. rewrite Pos2Z.inj_mul, mult_IZR, bpow_add. ring. Qed.

Lemma mul_round_pos_mono mc ec ma ea mb eb :
  canonical_mantissa prec emax mc ec = true -> canonical_mantissa prec emax ma ea = true ->
  canonical_mantissa prec emax mb eb = true -> (fval ma ea <= fval mb eb)%R ->
  SFleb (binary_round_aux prec emax false (Zpos (mc * ma)) (ec + ea) loc_Exact)
        (binary_round_aux prec emax false (Zpos (mc * mb)) (ec + eb) loc_Exact) = true.
Proof.
  intros Hc Ha Hb Hab.
  apply (round_aux_mono _ _ _ (fval mc ec * fval ma ea) _ _ _ (fval mc ec * fval mb eb));
    try apply Pos2Z.is_nonneg; try apply mul_exact; try apply mul_input_ok; try assumption.
  apply Rmult_le_compat_l; [|exact Hab].
  unfold fval. apply Rmult_le_pos; [apply IZR_le; lia|left; apply bpow_pos].
Qed.

Lemma mul_round_valid s mc ec ma ea :
  canonical_mantissa prec emax mc ec = true -> canonical_mantissa prec emax ma ea = true ->
  valid_binary prec emax (binary_round_aux prec emax s (Zpos (mc * ma)) (ec + ea) loc_Exact) = true /\
  signed_number s (binary_round_aux prec emax s (Zpos (mc * ma)) (ec + ea) loc_Exact).
Proof.
  intros Hc Ha.
  destruct (round_aux_valid s _ _ _ (fval mc ec * fval ma ea) (Pos2Z.is_nonneg _) (mul_exact _ _ _ _)
    (mul_input_ok _ _ _ _ Hc Ha)) as [Hv _].
  split; [exact Hv|]. apply binary_round_aux_signed. apply Pos2Z.is_nonneg.
Qed.

Lemma bounded_canonical m e : bounded prec emax m e = true -> canonical_mantissa prec emax m e = true.
Proof. unfold bounded. intros H. apply andb_prop in H. tauto. Qed.

(** Multiplication by a positive finite constant is monotone, keeps values
    valid and does not produce NaN from a number. *)
Lemma mul_mono_l mc ec a b :
  bounded prec emax mc ec = true -> valid_binary prec emax a = true -> valid_binary prec emax b = true ->
  SFleb a b = true ->
  SFleb (SFmul prec emax (S754_finite false mc ec) a) (SFmul prec emax (S754_finite false mc ec) b) = true.
Proof.
  intros Hc Va Vb Hab. apply bounded_canonical in Hc.
  destruct a as [sa|sa| |sa ma ea], b as [sb|sb| |sb mb eb];
    try discriminate Hab; try destruct sa; try destruct sb; try discriminate Hab;
    cbv beta iota delta [SFmul xorb]; try reflexivity;
    simpl valid_binary in Va, Vb;
    repeat match goal with
    | H : bounded _ _ _ _ = true |- _ => apply bounded_canonical in H
    end.
  all: try (apply SFleb_zero_l; apply mul_round_valid; assumption).
  all: try (apply SFleb_zero_r; apply mul_round_valid; assumption).
  all: try (apply SFleb_inf_r; eapply signed_not_nan; apply mul_round_valid; eassumption).
  all: try (apply SFleb_ninf_l; eapply signed_not_nan; apply mul_round_valid; eassumption).
  all: try (apply SFleb_signs; apply mul_round_valid; assumption).
  all: first
    [ apply mul_round_pos_mono; try assumption; apply canon_leb; assumption
    | rewrite !binary_round_aux_opp, SFleb_opp; apply mul_round_pos_mono; try assumption;
      apply canon_leb; try assumption; rewrite <- SFleb_opp; exact Hab ].
Qed.

Lemma mul_valid_l mc ec a :
  bounded prec emax mc ec = true -> valid_binary prec emax a = true ->
  valid_binary prec emax (SFmul prec emax (S754_finite false mc ec) a) = true.
Proof.
  intros Hc Va. apply bounded_canonical in Hc.
  destruct a as [sa|sa| |sa ma ea]; try reflexivity.
  apply mul_round_valid; [exact Hc|]. apply bounded_canonical. exact Va.
Qed.

Lemma shl_align_input_ok m e :
  let '(mz, ez) := shl_align m e (fexp (Zpos (digits2_pos m) + e)) in round_input_ok (Zpos mz) ez.
Proof.
  unfold shl_align, round_input_ok.
  destruct (fexp (Zpos (digits2_pos m) + e) - e)%Z eqn:Hd.
  - change (Zdigits2 (Zpos m)) with (Zpos (digits2_pos m)). lia.
  - change (Zdigits2 (Zpos m)) with (Zpos (digits2_pos m)). lia.
  - change (Zdigits2 (Zpos (Pos.iter xO m p))) with (Zpos (digits2_pos (Pos.iter xO m p))).
    rewrite digits2_pos_size, size_iter_xO, <- digits2_pos_size, Pos2Z.inj_add.
    replace (Zpos (digits2_pos m) + Zpos p + fexp (Zpos (digits2_pos m) + e))%Z
      with (Zpos (digits2_pos m) + e)%Z by lia. lia.
Qed.

Lemma binary_round_valid s m e : valid_binary prec emax (binary_round prec emax s m e) = true.
Proof.
  unfold binary_round. pose proof (shl_align_input_ok m e) as H.
  destruct (shl_align m e _) as [mz ez].
  apply (round_aux_valid s (Zpos mz) ez loc_Exact (IZR (Zpos mz) * bpow ez)%R);
    [apply Pos2Z.is_nonneg|reflexivity|exact H].
Qed.

(** ** Rounding of exact values: [binary_round] *)

Lemma shl_align_value m e e' :
  let '(mz, ez) := shl_align m e e' in fval mz ez = fval m e.
Proof.
  unfold shl_align. destruct (e' - e)%Z eqn:Hd; try reflexivity.
  unfold fval. rewrite pos_iter_xO, mult_IZR, <- (bpow_IZR (Zpos p)) by lia.
  rewrite Rmult_assoc, <- bpow_add. f_equal. f_equal. lia.
Qed.

Lemma binary_round_inbetween m e :
  let '(mz, ez) := shl_align m e (fexp (Zpos (digits2_pos m) + e)) in
  inbetween (Zpos mz) ez loc_Exact (fval m e) /\ round_input_ok (Zpos mz) ez.
Proof.
  pose proof (shl_align_input_ok m e) as Hok.
  pose proof (shl_align_value m e (fexp (Zpos (digits2_pos m) + e))) as Hv.
  destruct (shl_align m e _) as [mz ez]. split; [|exact Hok].
  simpl. rewrite <- Hv. reflexivity.
Qed.

Lemma binary_round_mono m1 e1 m2 e2 :
  (fval m1 e1 <= fval m2 e2)%R ->
  SFleb (binary_round prec emax false m1 e1) (binary_round prec emax false m2 e2) = true.
Proof.
  intros Hle. unfold binary_round.
  pose proof (binary_round_inbetween m1 e1) as H1. pose proof (binary_round_inbetween m2 e2) as H2.
  destruct (shl_align m1 e1 _) as [mz1 ez1], (shl_align m2 e2 _) as [mz2 ez2].
  destruct H1 as [Hi1 Hok1], H2 as [Hi2 Hok2].
  apply (round_aux_mono _ _ _ (fval m1 e1) _ _ _ (fval m2 e2));
    try apply Pos2Z.is_nonneg; assumption.
Qed.

Lemma binary_round_canonical s m e :
  bounded prec emax m e = true -> binary_round prec emax s m e = S754_finite s m e.
Proof.
  intros Hb. unfold bounded, canonical_mantissa in Hb.
  apply andb_prop in Hb as [Hc Hm]. apply Z.eqb_eq in Hc. apply Z.leb_le in Hm.
  unfold binary_round. rewrite Hc. unfold shl_align. rewrite Z.sub_diag.
  apply binary_round_aux_exact; assumption.
Qed.

Lemma binary_round_opp m e :
  binary_round prec emax true m e = SFopp (binary_round prec emax false m e).
Proof. unfold binary_round. destruct (shl_align m e _). apply binary_round_aux_opp. Qed.

Lemma binary_round_nonneg m e : nonneg (binary_round prec emax false m e).
Proof. apply signed_false_nonneg, binary_round_signed. Qed.

(** ** Valid non-negative numbers *)

Definition nnv (x : spec_float) : Prop := valid_binary prec emax x = true /\ nonneg x.

Lemma nnv_cases x :
  nnv x -> (exists s, x = S754_zero s) \/ x = S754_infinity false \/
           exists m e, x = S754_finite false m e /\ bounded prec emax m e = true.
Proof.
  intros [Hv Hn]. destruct x as [s|s| |s m e]; simpl in Hn.
  - left. eauto.
  - subst. right; left. reflexivity.
  - contradiction.
  - subst. right; right. eauto.
Qed.

Lemma nnv_zero s : nnv (S754_zero s).
Proof. split; [reflexivity|exact I]. Qed.

Lemma nnv_inf : nnv (S754_infinity false).
Proof. split; reflexivity. Qed.

Lemma nnv_not_nan x : nnv x -> x <> S754_nan.
Proof. intros [_ Hn] ->. contradiction. Qed.

Lemma SFleb_zero_nonneg s y : nonneg y -> SFleb (S754_zero s) y = true.
Proof. destruct y as [b|b| |b m e]; simpl; intros H; try contradiction; try subst b; reflexivity. Qed.

Lemma finite_leb_val m1 e1 m2 e2 :
  bounded prec emax m1 e1 = true -> bounded prec emax m2 e2 = true ->
  SFleb (S754_finite false m1 e1) (S754_finite false m2 e2) = true -> (fval m1 e1 <= fval m2 e2)%R.
Proof.
  intros H1 H2 H. apply bounded_canonical in H1, H2.
  apply (canon_leb m1 e1 m2 e2 H1 H2) in H. exact H.
Qed.

Lemma fval_pos m e : (0 < fval m e)%R.
Proof. unfold fval. apply Rmult_lt_0_compat; [apply IZR_lt; lia|apply bpow_pos]. Qed.

Lemma round_nnv m e l x :
  (0 <= m)%Z -> inbetween m e l x -> round_input_ok m e -> nnv (binary_round_aux prec emax false m e l).
Proof.
  intros Hm Hi Hok. destruct (round_aux_valid false m e l x Hm Hi Hok) as [Hv _].
  split; [exact Hv|]. apply signed_false_nonneg, binary_round_aux_signed. exact Hm.
Qed.

Lemma binary_round_nnv m e : nnv (binary_round prec emax false m e).
Proof. split; [apply binary_round_valid|apply binary_round_nonneg]. Qed.

(** Leaving a number unchanged, or rounding it up to [+inf], is going up. *)
Lemma nnv_le_inf x : nnv x -> SFleb x (S754_infinity false) = true.
Proof. intros H. apply SFleb_inf_r, nnv_not_nan, H. Qed.

Lemma inf_le_nnv y : nnv y -> SFleb (S754_infinity false) y = true -> y = S754_infinity false.
Proof. intros [_ Hn] H. destruct y as [b|[]| |b m e]; simpl in *; try discriminate; auto; contradiction. Qed.

Lemma finite_le_zero m e s : SFleb (S754_finite false m e) (S754_zero s) = false.
Proof. reflexivity. Qed.

(** ** Squares of non-negative numbers *)

Lemma sq_nnv x : nnv x -> nnv (SFmul prec emax x x).
Proof.
  intros Hx. destruct (nnv_cases x Hx) as [[s ->]|[->|[m [e [-> Hb]]]]].
  - simpl. rewrite xorb_nilpotent. apply nnv_zero.
  - apply nnv_inf.
  - simpl. apply bounded_canonical in Hb.
    apply (round_nnv _ _ _ (fval m e * fval m e)%R); [apply Pos2Z.is_nonneg|apply mul_exact|].
    apply mul_input_ok; assumption.
Qed.

Lemma sq_mono x y :
  nnv x -> nnv y -> SFleb x y = true -> SFleb (SFmul prec emax x x) (SFmul prec emax y y) = true.
Proof.
  intros Hx Hy Hxy. pose proof (sq_nnv y Hy) as Hy2.
  destruct (nnv_cases x Hx) as [[s ->]|[->|[m [e [-> Hb]]]]].
  - simpl. rewrite xorb_nilpotent. apply SFleb_zero_nonneg, Hy2.
  - rewrite (inf_le_nnv y Hy Hxy). reflexivity.
  - destruct (nnv_cases y Hy) as [[s' ->]|[->|[m' [e' [-> Hb']]]]].
    + discriminate.
    + apply nnv_le_inf, sq_nnv, Hx.
    + pose proof (finite_leb_val _ _ _ _ Hb Hb' Hxy) as Hv.
      apply bounded_canonical in Hb, Hb'. simpl.
      apply (round_aux_mono _ _ _ (fval m e * fval m e) _ _ _ (fval m' e' * fval m' e'));
        try apply Pos2Z.is_nonneg; try apply mul_exact; try (apply mul_input_ok; assumption).
      pose proof (fval_pos m e). apply Rmult_le_compat; lra.
Qed.

(** ** Sums of non-negative numbers *)

Lemma SFadd_comm x y : SFadd prec emax x y = SFadd prec emax y x.
Proof.
  destruct x as [[]|[]| |sx mx ex], y as [[]|[]| |sy my ey]; try reflexivity.
  unfold SFadd. rewrite Z.min_comm, Z.add_comm. reflexivity.
Qed.

Lemma shl_align_min m e e' :
  (e' <= e)%Z -> snd (shl_align m e e') = e' /\ fval (fst (shl_align m e e')) e' = fval m e.
Proof.
  intros He. pose proof (shl_align_value m e e') as Hv.
  unfold shl_align in *. destruct (e' - e)%Z eqn:Hd; simpl in *.
  - assert (e' = e) by lia. subst. auto.
  - lia.
  - auto.
Qed.

Lemma add_pos_eq mx ex my ey :
  exists p ez, SFadd prec emax (S754_finite false mx ex) (S754_finite false my ey) =
    binary_round prec emax false p ez /\ fval p ez = (fval mx ex + fval my ey)%R.
Proof.
  unfold SFadd. set (ez := Z.min ex ey).
  destruct (shl_align_min mx ex ez ltac:(lia)) as [_ Hx].
  destruct (shl_align_min my ey ez ltac:(lia)) as [_ Hy].
  exists (fst (shl_align mx ex ez) + fst (shl_align my ey ez))%positive, ez. split.
  - reflexivity.
  - rewrite <- Hx, <- Hy. unfold fval. rewrite Pos2Z.inj_add, plus_IZR. ring.
Qed.

Lemma add_nnv x y : nnv x -> nnv y -> nnv (SFadd prec emax x y).
Proof.
  intros Hx Hy.
  destruct (nnv_cases x Hx) as [[s ->]|[->|[m [e [-> Hb]]]]];
  destruct (nnv_cases y Hy) as [[s' ->]|[->|[m' [e' [-> Hb']]]]];
    try assumption; try apply nnv_inf.
  - destruct s, s'; apply nnv_zero.
  - destruct (add_pos_eq m e m' e') as [p [ez [-> _]]]. apply binary_round_nnv.
Qed.

Lemma add_zero_r x s : nnv x -> SFleb (SFadd prec emax x (S754_zero s)) x = true /\
  SFleb x (SFadd prec emax x (S754_zero s)) = true.
Proof.
  intros Hx. destruct (nnv_cases x Hx) as [[s' ->]|[->|[m [e [-> Hb]]]]].
  - destruct s, s'; split; reflexivity.
  - split; reflexivity.
  - split; apply SFleb_refl; discriminate.
Qed.

Lemma add_inf_r x : nnv x -> SFadd prec emax x (S754_infinity false) = S754_infinity false.
Proof. intros Hx. destruct (nnv_cases x Hx) as [[s' ->]|[->|[m [e [-> Hb]]]]]; reflexivity. Qed.

Lemma add_ge_r x y : nnv x -> nnv y -> SFleb y (SFadd prec emax x y) = true.
Proof.
  intros Hx Hy.
  destruct (nnv_cases x Hx) as [[s ->]|[->|[m [e [-> Hb]]]]];
  destruct (nnv_cases y Hy) as [[s' ->]|[->|[m' [e' [-> Hb']]]]];
    try reflexivity.
  - destruct s, s'; reflexivity.
  - apply SFleb_refl. discriminate.
  - destruct (add_pos_eq m e m' e') as [p [ez [-> Hv]]].
    rewrite <- (binary_round_canonical false m' e' Hb') at 1.
    apply binary_round_mono. rewrite Hv. pose proof (fval_pos m e). lra.
Qed.

Lemma add_mono_l a c b :
  nnv a -> nnv c -> nnv b -> SFleb a c = true ->
  SFleb (SFadd prec emax a b) (SFadd prec emax c b) = true.
Proof.
  intros Ha Hc Hb Hac.
  destruct (nnv_cases b Hb) as [[s ->]|[->|[mb [eb [-> Hbb]]]]].
  - destruct (add_zero_r a s Ha) as [H1 _]. destruct (add_zero_r c s Hc) as [_ H2].
    eapply SFleb_trans; [exact H1|]. eapply SFleb_trans; [exact Hac|exact H2].
  - rewrite (add_inf_r a Ha), (add_inf_r c Hc). reflexivity.
  - destruct (nnv_cases a Ha) as [[s ->]|[->|[ma [ea [-> Hba]]]]].
    + change (SFadd prec emax (S754_zero s) (S754_finite false mb eb)) with (S754_finite false mb eb).
      apply add_ge_r; [exact Hc|exact Hb].
    + rewrite (inf_le_nnv c Hc Hac). reflexivity.
    + destruct (nnv_cases c Hc) as [[s ->]|[->|[mc [ec [-> Hbc]]]]].
      * discriminate.
      * apply nnv_le_inf, add_nnv; assumption.
      * pose proof (finite_leb_val _ _ _ _ Hba Hbc Hac) as Hv.
        destruct (add_pos_eq ma ea mb eb) as [p [ez [-> Hp]]].
        destruct (add_pos_eq mc ec mb eb) as [p' [ez' [-> Hp']]].
        apply binary_round_mono. lra.
Qed.

Lemma add_mono a b c d :
  nnv a -> nnv b -> nnv c -> nnv d -> SFleb a c = true -> SFleb b d = true ->
  SFleb (SFadd prec emax a b) (SFadd prec emax c d) = true.
Proof.
  intros Ha Hb Hc Hd Hac Hbd. apply SFleb_trans with (SFadd prec emax c b); [apply add_mono_l; assumption|].
  rewrite (SFadd_comm c b), (SFadd_comm c d). apply add_mono_l; assumption.
Qed.

Lemma fold_add_mono xs ys acc acc' :
  Forall2 (fun x y => nnv x /\ nnv y /\ SFleb x y = true) xs ys ->
  nnv acc -> nnv acc' -> SFleb acc acc' = true ->
  nnv (fold_left (SFadd prec emax) xs acc) /\ nnv (fold_left (SFadd prec emax) ys acc') /\
  SFleb (fold_left (SFadd prec emax) xs acc) (fold_left (SFadd prec emax) ys acc') = true.
Proof.
  intros H. revert acc acc'. induction H as [|x y xs ys [Hx [Hy Hxy]] _ IH];
    intros acc acc' Ha Ha' Hle; simpl; [auto|].
  apply IH; try (apply add_nnv; assumption). apply add_mono; assumption.
Qed.

(** ** Quotients *)

Lemma inbetween_frac_exact q e t x :
  x = ((IZR q + t) * bpow e)%R -> t = 0%R -> inbetween q e loc_Exact x.
Proof. intros -> ->. simpl. ring. Qed.

Lemma inbetween_frac_inexact q e t x c :
  x = ((IZR q + t) * bpow e)%R -> (0 < t < 1)%R -> loc_pos c t (/ 2)%R ->
  inbetween q e (loc_Inexact c) x.
Proof.
  intros -> [Ht0 Ht1] Hc. pose proof (bpow_pos e) as HB. simpl. rewrite plus_IZR. simpl IZR.
  split; [split|].
  - pose proof (Rmult_lt_0_compat t (bpow e) Ht0 HB). nra.
  - assert (0 < (1 - t) * bpow e)%R by (apply Rmult_lt_0_compat; lra). nra.
  - destruct c; simpl in Hc |- *.
    + rewrite Hc. reflexivity.
    + assert (0 < (/ 2 - t) * bpow e)%R by (apply Rmult_lt_0_compat; lra). nra.
    + assert (0 < (t - / 2) * bpow e)%R by (apply Rmult_lt_0_compat; lra). nra.
Qed.

Lemma Zdigits2_div_ge a b : (0 < a)%Z -> (0 < b)%Z -> (Zdigits2 a - Zdigits2 b <= Zdigits2 (a / b))%Z.
Proof.
  intros Ha Hb. pose proof (Zdigits2_nonneg (a / b)) as Hq0.
  destruct (Z.lt_ge_cases a b) as [Hab|Hab].
  - pose proof (Zdigits2_mono a b ltac:(lia)). lia.
  - assert (Hq : (0 < a / b)%Z) by (apply Z.div_str_pos; lia).
    destruct (Zdigits2_bounds a Ha) as [_ [Ha1 _]].
    destruct (Zdigits2_bounds b Hb) as [_ [_ Hb2]].
    destruct (Zdigits2_bounds (a / b) Hq) as [_ [_ Hq2]].
    pose proof (Z.mul_div_le a b Hb). pose proof (Z.mod_pos_bound a b Hb).
    pose proof (Z.div_mod a b ltac:(lia)).
    assert (Hlt : (a < 2 ^ (Zdigits2 (a / b) + Zdigits2 b))%Z).
    { rewrite Z.pow_add_r by (apply Zdigits2_nonneg).
      assert (a < (a / b + 1) * b)%Z by nia.
      assert ((a / b + 1) * b <= 2 ^ Zdigits2 (a / b) * 2 ^ Zdigits2 b)%Z by nia. lia. }
    assert (Zdigits2 a - 1 < Zdigits2 (a / b) + Zdigits2 b)%Z.
    { apply (Z.pow_lt_mono_r_iff 2); try lia.
      - pose proof (Zdigits2_nonneg (a / b)). pose proof (Zdigits2_nonneg b). lia. }
    lia.
Qed.

Lemma div_core_spec m1 e1 m2 e2 :
  let '(q, e', l) := SFdiv_core_binary prec emax (Zpos m1) e1 (Zpos m2) e2 in
  (0 <= q)%Z /\ inbetween q e' l (fval m1 e1 / fval m2 e2)%R /\ round_input_ok q e'.
Proof.
  unfold SFdiv_core_binary.
  set (F := SpecFloat.fexp prec emax (Zdigits2 (Zpos m1) + e1 - (Zdigits2 (Zpos m2) + e2))).
  set (e' := Z.min F (e1 - e2)).
  set (s := (e1 - e2 - e')%Z).
  assert (Hs : (0 <= s)%Z) by lia.
  set (M := match s with Zpos _ => Z.shiftl (Zpos m1) s | Z0 => Zpos m1 | Zneg _ => 0%Z end).
  assert (HM : M = (Zpos m1 * 2 ^ s)%Z).
  { unfold M. destruct s; [lia| |lia]. apply Z.shiftl_mul_pow2. lia. }
  clearbody M. change (IntDef.Z.div_eucl M (Zpos m2)) with (Z.div_eucl M (Zpos m2)).
  pose proof (Z_div_mod M (Zpos m2) ltac:(lia)) as Hdm.
  destruct (Z.div_eucl M (Zpos m2)) as [q r] eqn:Hd. destruct Hdm as [HMqr Hr].
  assert (HMpos : (0 < M)%Z) by (rewrite HM; apply Z.mul_pos_pos; [lia|apply Z.pow_pos_nonneg; lia]).
  assert (Hq : (0 <= q)%Z) by nia.
  assert (Hqdiv : q = (M / Zpos m2)%Z).
  { apply (Z.div_unique M (Zpos m2) q r); lia. }
  split; [exact Hq|]. split.
  - set (t := (IZR r / IZR (Zpos m2))%R).
    assert (Hm2 : (0 < IZR (Zpos m2))%R) by (apply IZR_lt; lia).
    assert (Htm : (t * IZR (Zpos m2) = IZR r)%R) by (unfold t; field; lra).
    assert (Hx : (fval m1 e1 / fval m2 e2 = (IZR q + t) * bpow e')%R).
    { unfold fval, t. replace e1 with (s + e' + e2)%Z at 1 by lia.
      rewrite !bpow_add, (bpow_IZR s Hs).
      assert (Hb : (IZR (Zpos m1) * IZR (2 ^ s) = IZR (Zpos m2) * IZR q + IZR r)%R).
      { rewrite <- !mult_IZR, <- plus_IZR. f_equal. lia. }
      pose proof (bpow_pos e2). pose proof (bpow_pos e').
      transitivity ((IZR (Zpos m1) * IZR (2 ^ s)) * bpow e' * bpow e2 / (IZR (Zpos m2) * bpow e2))%R.
      { field. lra. }
      rewrite Hb. field. lra. }
    assert (Ht0 : (0 <= t)%R).
    { unfold t. apply Rmult_le_pos; [apply IZR_le; lia|left; apply Rinv_0_lt_compat; exact Hm2]. }
    assert (Ht1 : (t < 1)%R).
    { destruct (Rlt_or_le t 1) as [|Hge]; [assumption|exfalso].
      assert (IZR (Zpos m2) <= IZR r)%R by nra. apply le_IZR in H. lia. }
    assert (Ht0' : r <> 0%Z -> (0 < t)%R).
    { intros Hr0. destruct Ht0 as [|Ht]; [assumption|exfalso].
      rewrite <- Ht in Htm. assert (IZR r = 0%R) by lra. apply eq_IZR in H. lia. }
    assert (Hlt : (2 * r < Zpos m2)%Z -> (t < / 2)%R).
    { intros H. apply IZR_lt in H. rewrite mult_IZR in H. simpl IZR in H. nra. }
    assert (Hgt : (Zpos m2 < 2 * r)%Z -> (/ 2 < t)%R).
    { intros H. apply IZR_lt in H. rewrite mult_IZR in H. simpl IZR in H. nra. }
    assert (Heq : (2 * r = Zpos m2)%Z -> t = (/ 2)%R).
    { intros H. apply (f_equal IZR) in H. rewrite mult_IZR in H. simpl IZR in H.
      apply (Rmult_eq_reg_r (IZR (Zpos m2))); lra. }
    unfold new_location, new_location_even, new_location_odd.
    destruct (Z.even (Zpos m2)) eqn:He;
      match goal with |- context [if ?b then _ else _] => destruct b eqn:Hr0 end;
      [apply Z.eqb_eq in Hr0 | apply Z.eqb_neq in Hr0 | apply Z.eqb_eq in Hr0 | apply Z.eqb_neq in Hr0].
    1,3: subst r; apply (inbetween_frac_exact _ _ t); try exact Hx;
        unfold t; simpl; lra.
    all: specialize (Ht0' Hr0).
    + apply (inbetween_frac_inexact _ _ t); try exact Hx; [lra|].
      destruct (Z.compare_spec (2 * r) (Zpos m2)); simpl; auto.
    + apply (inbetween_frac_inexact _ _ t); try exact Hx; [lra|].
      destruct (Z.compare_spec (2 * r + 1) (Zpos m2)); simpl; try (apply Hlt; lia).
      apply Hgt. destruct (Z.eq_dec (2 * r) (Zpos m2)) as [H2|H2]; [|lia].
      rewrite <- H2, Z.even_mul in He. discriminate.
  - unfold round_input_ok. rewrite Hqdiv.
    pose proof (Zdigits2_div_ge M (Zpos m2) HMpos ltac:(lia)) as Hd1.
    assert (HdM : Zdigits2 M = (Zdigits2 (Zpos m1) + s)%Z).
    { rewrite HM. destruct (Zdigits2_bounds (Zpos m1) ltac:(lia)) as [Hb0 [Hb1 Hb2]].
      apply Zdigits2_unique; [apply Z.mul_pos_pos; [lia|apply Z.pow_pos_nonneg; lia]|].
      replace (Zdigits2 (Zpos m1) + s - 1)%Z with ((Zdigits2 (Zpos m1) - 1) + s)%Z by lia.
      rewrite !Z.pow_add_r by lia. pose proof (Z.pow_pos_nonneg 2 s ltac:(lia)). nia. }
    assert (e' <= F)%Z by lia.
    apply Z.le_trans with F; [lia|]. unfold F. apply fexp_mono. lia.
Qed.

Lemma div_fin_eq m e md ed :
  SFdiv prec emax (S754_finite false m e) (S754_finite false md ed) =
  let '(mz, ez, lz) := SFdiv_core_binary prec emax (Zpos m) e (Zpos md) ed in
  binary_round_aux prec emax false mz ez lz.
Proof. reflexivity. Qed.

Lemma div_fin_nnv m e md ed : nnv (SFdiv prec emax (S754_finite false m e) (S754_finite false md ed)).
Proof.
  rewrite div_fin_eq. pose proof (div_core_spec m e md ed) as H.
  destruct (SFdiv_core_binary _ _ _ _ _ _) as [[q e'] l]. destruct H as [Hq [Hi Hok]].
  exact (round_nnv _ _ _ _ Hq Hi Hok).
Qed.

(** Division by a fixed positive finite number keeps numbers non-negative and
    valid, and is monotone on them. *)
Lemma div_nnv x md ed : nnv x -> nnv (SFdiv prec emax x (S754_finite false md ed)).
Proof.
  intros Hx. destruct (nnv_cases x Hx) as [[s ->]|[->|[m [e [-> Hb]]]]].
  - simpl. rewrite xorb_false_r. apply nnv_zero.
  - apply nnv_inf.
  - apply div_fin_nnv.
Qed.

Lemma div_mono x y md ed :
  nnv x -> nnv y -> SFleb x y = true ->
  SFleb (SFdiv prec emax x (S754_finite false md ed)) (SFdiv prec emax y (S754_finite false md ed)) = true.
Proof.
  intros Hx Hy Hxy. pose proof (div_nnv y md ed Hy) as Hy2.
  destruct (nnv_cases x Hx) as [[s ->]|[->|[m [e [-> Hb]]]]].
  - simpl. rewrite xorb_false_r. apply SFleb_zero_nonneg, Hy2.
  - rewrite (inf_le_nnv y Hy Hxy). reflexivity.
  - destruct (nnv_cases y Hy) as [[s' ->]|[->|[m' [e' [-> Hb']]]]].
    + discriminate.
    + apply nnv_le_inf, div_fin_nnv.
    + pose proof (finite_leb_val _ _ _ _ Hb Hb' Hxy) as Hv.
      rewrite !div_fin_eq. pose proof (div_core_spec m e md ed) as H1.
      pose proof (div_core_spec m' e' md ed) as H2.
      destruct (SFdiv_core_binary _ _ (Zpos m) _ _ _) as [[q1 f1] l1].
      destruct (SFdiv_core_binary _ _ (Zpos m') _ _ _) as [[q2 f2] l2].
      destruct H1 as [Hq1 [Hi1 Hok1]], H2 as [Hq2 [Hi2 Hok2]].
      apply (round_aux_mono _ _ _ _ _ _ _ _ Hq1 Hi1 Hok1 Hq2 Hi2 Hok2).
      pose proof (fval_pos md ed). unfold Rdiv. apply Rmult_le_compat_r; [|exact Hv].
      left. apply Rinv_0_lt_compat. assumption.
Qed.

(** ** Square roots *)

Lemma sqrt_lt_of X a : (0 <= X)%R -> (0 <= a)%R -> (X < a * a)%R -> (sqrt X < a)%R.
Proof. intros HX Ha H. rewrite <- (sqrt_square a Ha). apply sqrt_lt_1_alt. lra. Qed.

Lemma sqrt_gt_of X a : (0 <= a)%R -> (a * a < X)%R -> (a < sqrt X)%R.
Proof.
  intros Ha H. rewrite <- (sqrt_square a Ha) at 1. apply sqrt_lt_1_alt.
  split; [apply Rmult_le_pos|]; assumption.
Qed.

Lemma sqrt_ge_of X a : (0 <= a)%R -> (a * a <= X)%R -> (a <= sqrt X)%R.
Proof. intros Ha H. rewrite <- (sqrt_square a Ha). apply sqrt_le_1_alt. exact H. Qed.

Lemma sqrt_core_spec m e :
  let '(q, e', l) := SFsqrt_core_binary prec emax (Zpos m) e in
  (0 <= q)%Z /\ inbetween q e' l (sqrt (fval m e)) /\ round_input_ok q e'.
Proof.
  unfold SFsqrt_core_binary.
  set (F := SpecFloat.fexp prec emax (Z.div2 (Zdigits2 (Zpos m) + e + 1))).
  set (e' := Z.min F (Z.div2 e)).
  set (s := (e - 2 * e')%Z).
  assert (Hs : (0 <= s)%Z).
  { pose proof (Z.le_min_r F (Z.div2 e)). rewrite Z.div2_div in *.
    pose proof (Z.mul_div_le e 2 ltac:(lia)). unfold s, e'. lia. }
  set (M := match s with Zpos _ => Z.shiftl (Zpos m) s | Z0 => Zpos m | Zneg _ => 0%Z end).
  assert (HM : M = (Zpos m * 2 ^ s)%Z).
  { unfold M. destruct s; [lia| |lia]. apply Z.shiftl_mul_pow2. lia. }
  clearbody M. change (IntDef.Z.sqrtrem M) with (Z.sqrtrem M).
  assert (HMpos : (0 < M)%Z) by (rewrite HM; apply Z.mul_pos_pos; [lia|apply Z.pow_pos_nonneg; lia]).
  pose proof (Z.sqrtrem_spec M ltac:(lia)) as Hsq.
  destruct (Z.sqrtrem M) as [q r]. destruct Hsq as [HMqr Hr].
  assert (Hq : (0 < q)%Z) by nia.
  split; [lia|]. split.
  - set (t := (sqrt (IZR M) - IZR q)%R).
    assert (HQ : (0 < IZR q)%R) by (apply IZR_lt; lia).
    assert (HMR : IZR M = (IZR q * IZR q + IZR r)%R) by (rewrite HMqr, plus_IZR, mult_IZR; reflexivity).
    assert (Hr0 : (0 <= IZR r)%R) by (apply IZR_le; lia).
    assert (Hx : sqrt (fval m e) = ((IZR q + t) * bpow e')%R).
    { unfold t. replace (IZR q + (sqrt (IZR M) - IZR q))%R with (sqrt (IZR M)) by ring.
      unfold fval. replace e with (s + e' + e')%Z at 1 by lia.
      rewrite !bpow_add, (bpow_IZR s Hs).
      replace (IZR (Zpos m) * (IZR (2 ^ s) * bpow e' * bpow e'))%R
        with (IZR M * (bpow e' * bpow e'))%R by (rewrite HM, mult_IZR; ring).
      pose proof (bpow_pos e'). rewrite sqrt_mult_alt by (apply IZR_le; lia).
      rewrite sqrt_square by lra. reflexivity. }
    assert (Ht0 : (0 <= t)%R).
    { unfold t. assert (IZR q <= sqrt (IZR M))%R by (apply sqrt_ge_of; lra). lra. }
    assert (Ht1 : (t < 1)%R).
    { unfold t. assert (sqrt (IZR M) < IZR q + 1)%R; [|lra].
      apply sqrt_lt_of; [apply IZR_le; lia|lra|]. assert (IZR r <= 2 * IZR q)%R.
      { replace 2%R with (IZR 2) by reflexivity. rewrite <- mult_IZR. apply IZR_le. lia. }
      nra. }
    match goal with |- context [if ?b then _ else _] => destruct b eqn:Hre end.
    + apply Z.eqb_eq in Hre. subst r. apply (inbetween_frac_exact _ _ t); [exact Hx|].
      unfold t. rewrite HMR. replace (IZR 0) with 0%R by reflexivity.
      rewrite Rplus_0_r, sqrt_square; lra.
    + apply Z.eqb_neq in Hre.
      assert (Hr1 : (1 <= IZR r)%R) by (apply IZR_le; lia).
      apply (inbetween_frac_inexact _ _ t); [exact Hx| |].
      * split; [|exact Ht1]. unfold t. assert (IZR q < sqrt (IZR M))%R; [|lra].
        apply sqrt_gt_of; lra.
      * match goal with |- context [if ?b then _ else _] => destruct b eqn:Hrq end; simpl.
        -- apply Z.leb_le in Hrq. apply IZR_le in Hrq.
           unfold t. assert (sqrt (IZR M) < IZR q + / 2)%R; [|lra]. apply sqrt_lt_of; [apply IZR_le; lia|lra|nra].
        -- apply Z.leb_gt in Hrq. assert (IZR q + 1 <= IZR r)%R.
           { rewrite <- plus_IZR. apply IZR_le. lia. }
           unfold t. assert (IZR q + / 2 < sqrt (IZR M))%R; [|lra]. apply sqrt_gt_of; [lra|nra].
  - unfold round_input_ok.
    assert (HdM : Zdigits2 M = (Zdigits2 (Zpos m) + s)%Z).
    { rewrite HM. destruct (Zdigits2_bounds (Zpos m) ltac:(lia)) as [Hb0 [Hb1 Hb2]].
      apply Zdigits2_unique; [apply Z.mul_pos_pos; [lia|apply Z.pow_pos_nonneg; lia]|].
      replace (Zdigits2 (Zpos m) + s - 1)%Z with ((Zdigits2 (Zpos m) - 1) + s)%Z by lia.
      rewrite !Z.pow_add_r by lia. pose proof (Z.pow_pos_nonneg 2 s ltac:(lia)). nia. }
    destruct (Zdigits2_bounds M HMpos) as [_ [HM1 _]].
    destruct (Zdigits2_bounds q Hq) as [Hq0 [_ Hq2]].
    assert (HDq : (Zdigits2 M - 1 < 2 * Zdigits2 q)%Z).
    { apply (Z.pow_lt_mono_r_iff 2); try lia.
      replace (2 * Zdigits2 q)%Z with (Zdigits2 q + Zdigits2 q)%Z by lia.
      rewrite Z.pow_add_r by lia. assert (q + 1 <= 2 ^ Zdigits2 q)%Z by lia. nia. }
    assert (Hge : (Z.div2 (Zdigits2 (Zpos m) + e + 1) <= Zdigits2 q + e')%Z).
    { rewrite Z.div2_div. assert (Hse : s = (e - 2 * e')%Z) by reflexivity.
      assert ((Zdigits2 (Zpos m) + e + 1) / 2 < Zdigits2 q + e' + 1)%Z; [|lia].
      apply Z.div_lt_upper_bound; lia. }
    apply Z.le_trans with F; [unfold e'; lia|]. unfold F. apply fexp_mono. exact Hge.
Qed.

Lemma sqrt_fin_eq m e :
  SFsqrt prec emax (S754_finite false m e) =
  let '(mz, ez, lz) := SFsqrt_core_binary prec emax (Zpos m) e in
  binary_round_aux prec emax false mz ez lz.
Proof. reflexivity. Qed.

Lemma sqrt_fin_nnv m e : nnv (SFsqrt prec emax (S754_finite false m e)).
Proof.
  rewrite sqrt_fin_eq. pose proof (sqrt_core_spec m e) as H.
  destruct (SFsqrt_core_binary _ _ _ _) as [[q e'] l]. destruct H as [Hq [Hi Hok]].
  exact (round_nnv _ _ _ _ Hq Hi Hok).
Qed.

(** The square root keeps numbers non-negative and valid, and is monotone on them. *)
Lemma sqrt_nnv x : nnv x -> nnv (SFsqrt prec emax x).
Proof.
  intros Hx. destruct (nnv_cases x Hx) as [[s ->]|[->|[m [e [-> Hb]]]]].
  - apply nnv_zero.
  - apply nnv_inf.
  - apply sqrt_fin_nnv.
Qed.

Lemma sqrt_mono x y :
  nnv x -> nnv y -> SFleb x y = true -> SFleb (SFsqrt prec emax x) (SFsqrt prec emax y) = true.
Proof.
  intros Hx Hy Hxy. pose proof (sqrt_nnv y Hy) as Hy2.
  destruct (nnv_cases x Hx) as [[s ->]|[->|[m [e [-> Hb]]]]].
  - apply SFleb_zero_nonneg, Hy2.
  - rewrite (inf_le_nnv y Hy Hxy). reflexivity.
  - destruct (nnv_cases y Hy) as [[s' ->]|[->|[m' [e' [-> Hb']]]]].
    + discriminate.
    + apply nnv_le_inf, sqrt_fin_nnv.
    + pose proof (finite_leb_val _ _ _ _ Hb Hb' Hxy) as Hv.
      rewrite !sqrt_fin_eq. pose proof (sqrt_core_spec m e) as H1.
      pose proof (sqrt_core_spec m' e') as H2.
      destruct (SFsqrt_core_binary _ _ (Zpos m) _) as [[q1 f1] l1].
      destruct (SFsqrt_core_binary _ _ (Zpos m') _) as [[q2 f2] l2].
      destruct H1 as [Hq1 [Hi1 Hok1]], H2 as [Hq2 [Hi2 Hok2]].
      apply (round_aux_mono _ _ _ _ _ _ _ _ Hq1 Hi1 Hok1 Hq2 Hi2 Hok2).
      apply sqrt_le_1_alt. exact Hv.
Qed.

End RoundTheory.

Lemma SFcompare_swap x y : SFcompare y x = option_map CompOpp (SFcompare x y).
Proof.
  destruct x as [[]|[]| |[] mx ex], y as [[]|[]| |[] my ey]; try reflexivity;
    unfold SFcompare; simpl;
    change (PosDef.Pos.compare_cont Eq) with Pos.compare;
    change (Pos.compare_cont Eq) with Pos.compare;
    (destruct (Z.compare_spec ex ey) as [<-|H|H];
     [rewrite ?Z.compare_refl
     |rewrite ?(proj2 (Z.compare_lt_iff ex ey) H), ?(proj2 (Z.compare_gt_iff ey ex) H)
     |rewrite ?(proj2 (Z.compare_gt_iff ex ey) H), ?(proj2 (Z.compare_lt_iff ey ex) H)]);
    simpl; try reflexivity;
    (destruct (Pos.compare_spec mx my) as [<-|H'|H'];
     [rewrite ?Pos.compare_refl
     |rewrite ?(proj2 (Pos.compare_lt_iff mx my) H'), ?(proj2 (Pos.compare_gt_iff my mx) H')
     |rewrite ?(proj2 (Pos.compare_gt_iff mx my) H'), ?(proj2 (Pos.compare_lt_iff my mx) H')]);
    reflexivity.
Qed.

Lemma SFleb_not_ltb x y : x <> S754_nan -> y <> S754_nan -> SFltb x y = false -> SFleb y x = true.
Proof.
  intros Hx Hy H. unfold SFltb in H. unfold SFleb. rewrite SFcompare_swap.
  destruct (SFcompare x y) as [[]|] eqn:E; try reflexivity; try discriminate.
  destruct x, y; try congruence; discriminate E.
Qed.

Lemma f64_to_f32_valid x : valid_binary prec32 emax32 (f64_to_f32 x) = true.
Proof. destruct x; try reflexivity. apply binary_round_valid; reflexivity. Qed.

Lemma calculate_rms_valid chunk : valid_binary prec32 emax32 (calculate_rms chunk) = true.
Proof. destruct chunk; [reflexivity|apply f64_to_f32_valid]. Qed.

Lemma MIN_RMS_valid : valid_binary prec32 emax32 MIN_RMS = true.
Proof. vm_compute. reflexivity. Qed.

Lemma f32_max_floor r :
  valid_binary prec32 emax32 r = true ->
  valid_binary prec32 emax32 (f32_max r MIN_RMS) = true /\ f32_le MIN_RMS (f32_max r MIN_RMS) = true.
Proof.
  intros Hr. unfold f32_max.
  destruct r as [s|s| |s m e] eqn:Er;
    try (split; [exact MIN_RMS_valid|vm_compute; reflexivity]);
    (destruct (f32_lt _ MIN_RMS) eqn:Hlt;
     [split; [exact MIN_RMS_valid|vm_compute; reflexivity]|]);
    (split; [exact Hr|]); apply SFleb_not_ltb; try discriminate; exact Hlt.
Qed.

Lemma f32_twenty_eq : f32_twenty = S754_finite false 10485760 (-19).
Proof. vm_compute. reflexivity. Qed.

Lemma f32_twenty_bounded : bounded prec32 emax32 10485760 (-19) = true.
Proof. vm_compute. reflexivity. Qed.

Section Floor.
Variable log10 : f32 -> f32.
Hypothesis log10_valid : forall x, valid_binary prec32 emax32 x = true -> f32_le MIN_RMS x = true ->
  valid_binary prec32 emax32 (log10 x) = true.
Hypothesis log10_mono : forall x y, valid_binary prec32 emax32 x = true -> valid_binary prec32 emax32 y = true ->
  f32_le MIN_RMS x = true -> f32_le x y = true -> f32_le (log10 x) (log10 y) = true.

Lemma rms_to_dbfs_ge_floor r :
  valid_binary prec32 emax32 r = true ->
  f32_le (f32_mul f32_twenty (log10 MIN_RMS)) (rms_to_dbfs log10 r) = true.
Proof.
  intros Hr. destruct (f32_max_floor r Hr) as [Hv Hle].
  assert (Hmin : f32_le MIN_RMS MIN_RMS = true) by (vm_compute; reflexivity).
  unfold rms_to_dbfs, f32_mul, f32_le. rewrite f32_twenty_eq.
  apply mul_mono_l; [reflexivity|reflexivity|exact f32_twenty_bounded| | |].
  - apply log10_valid; [exact MIN_RMS_valid|exact Hmin].
  - apply log10_valid; assumption.
  - apply log10_mono; [exact MIN_RMS_valid|exact Hv|exact Hmin|exact Hle].
Qed.
End Floor.

Lemma SFleb_nan_r x : SFleb x S754_nan = false.
Proof. destruct x; reflexivity. Qed.

(** ** Claim C10 *)

(** C10: for every buffer (NaN samples included), every chunk size and either
    profile, every element of a result that [analyze_audio_rms] returns is
    [>= 20 * log10(MIN_RMS)] (the product [f32_mul f32_twenty (log10 MIN_RMS)]),
    and none is NaN: [f32::max] turns a NaN RMS into [MIN_RMS]. [f32::log10]
    is the platform's, so it is a parameter: the statement assumes that on
    valid floats [>= MIN_RMS] it returns valid floats and is monotone (the
    hypotheses imply it returns no NaN there). *)
Theorem analyze_audio_rms_floor (p : profile) (log10 : f32 -> f32)
  (Hvalid : forall x, valid_binary prec32 emax32 x = true -> f32_le MIN_RMS x = true ->
     valid_binary prec32 emax32 (log10 x) = true)
  (Hmono : forall x y, valid_binary prec32 emax32 x = true -> valid_binary prec32 emax32 y = true ->
     f32_le MIN_RMS x = true -> f32_le x y = true -> f32_le (log10 x) (log10 y) = true)
  (pcm : list f32) (n : N) (r : list f32) :
  analyze_audio_rms p log10 pcm n = Some r ->
  Forall (fun d => f32_le (f32_mul f32_twenty (log10 MIN_RMS)) d = true /\ d <> S754_nan) r.
Proof.
  intros Hr.
  assert (Hd : forall d, f32_le (f32_mul f32_twenty (log10 MIN_RMS)) d = true -> d <> S754_nan).
  { intros d Hle ->. unfold f32_le in Hle. rewrite SFleb_nan_r in Hle. discriminate. }
  destruct (N.eq_dec (len pcm) 0) as [H0|H0].
  - destruct pcm; [|discriminate].
    unfold analyze_audio_rms in Hr. simpl in Hr. injection Hr as <-. constructor.
  - destruct (N.eq_dec n 0) as [->|Hn].
    + unfold analyze_audio_rms in Hr. rewrite orb_true_r in Hr. injection Hr as <-. constructor.
    + rewrite analyze_audio_rms_nonempty in Hr by assumption.
      destruct (capacity_overflows p (len pcm) n); [discriminate|]. injection Hr as <-.
      apply Forall_forall. intros d Hin. apply in_map_iff in Hin as [c [<- _]].
      assert (Hle : f32_le (f32_mul f32_twenty (log10 MIN_RMS)) (chunk_dbfs log10 c) = true).
      { apply rms_to_dbfs_ge_floor; try assumption. apply calculate_rms_valid. }
      split; [exact Hle|apply Hd; exact Hle].
Qed.


Lemma analyze_audio_rms_floor_witness :
  analyze_audio_rms Debug (fun x => x) [S754_nan; f32_one; f32_lit 3 0] 2 =
    Some [S754_finite false 9007199 (-52); S754_finite false 15728640 (-18)] /\
  Forall (fun d => f32_le (f32_mul f32_twenty MIN_RMS) d = true /\ d <> S754_nan)
    [S754_finite false 9007199 (-52); S754_finite false 15728640 (-18)].
Proof.
  split; [vm_compute; reflexivity|].
  apply (analyze_audio_rms_floor Debug (fun x => x)
           (fun x Hx _ => Hx) (fun x y _ _ _ Hxy => Hxy) [S754_nan; f32_one; f32_lit 3 0] 2).
  vm_compute. reflexivity.
Defined.

(** ** Scaling the samples of a chunk *)

Lemma SFmul_opp_opp prec emax a b : SFmul prec emax (SFopp a) (SFopp b) = SFmul prec emax a b.
Proof. destruct a as [[]|[]| |[] ? ?], b as [[]|[]| |[] ? ?]; reflexivity. Qed.

Lemma f32_to_f64_opp x : f32_to_f64 (SFopp x) = SFopp (f32_to_f64 x).
Proof.
  destruct x as [[]|[]| |[] m e]; try reflexivity; simpl.
  - rewrite (binary_round_opp prec64 emax64). destruct (binary_round _ _ false m e) as [[]|[]| |[] ? ?]; reflexivity.
  - apply binary_round_opp.
Qed.

Lemma sq_opp x :
  f64_mul (f32_to_f64 (SFopp x)) (f32_to_f64 (SFopp x)) = f64_mul (f32_to_f64 x) (f32_to_f64 x).
Proof. unfold f64_mul. rewrite f32_to_f64_opp. apply SFmul_opp_opp. Qed.

Lemma to64_nnv x : nnv prec32 emax32 x -> nnv prec64 emax64 (f32_to_f64 x).
Proof.
  intros Hx. destruct (nnv_cases _ _ x Hx) as [[s ->]|[->|[m [e [-> Hb]]]]].
  - exact (nnv_zero _ _ _).
  - exact (nnv_inf _ _).
  - apply (binary_round_nnv prec64 emax64 eq_refl eq_refl).
Qed.

Lemma to64_mono x y :
  nnv prec32 emax32 x -> nnv prec32 emax32 y -> SFleb x y = true ->
  SFleb (f32_to_f64 x) (f32_to_f64 y) = true.
Proof.
  intros Hx Hy Hxy. pose proof (to64_nnv y Hy) as Hy2.
  destruct (nnv_cases _ _ x Hx) as [[s ->]|[->|[m [e [-> Hb]]]]].
  - apply SFleb_zero_nonneg, Hy2.
  - rewrite (inf_le_nnv _ _ y Hy Hxy). reflexivity.
  - destruct (nnv_cases _ _ y Hy) as [[s' ->]|[->|[m' [e' [-> Hb']]]]].
    + discriminate.
    + apply (nnv_le_inf prec64 emax64), (to64_nnv _ Hx).
    + apply (binary_round_mono prec64 emax64 eq_refl eq_refl).
      exact (finite_leb_val _ _ _ _ _ _ Hb Hb' Hxy).
Qed.

Lemma to32_nnv x : nnv prec64 emax64 x -> nnv prec32 emax32 (f64_to_f32 x).
Proof.
  intros Hx. destruct (nnv_cases _ _ x Hx) as [[s ->]|[->|[m [e [-> Hb]]]]].
  - exact (nnv_zero _ _ _).
  - exact (nnv_inf _ _).
  - apply (binary_round_nnv prec32 emax32 eq_refl eq_refl).
Qed.

Lemma to32_mono x y :
  nnv prec64 emax64 x -> nnv prec64 emax64 y -> SFleb x y = true ->
  SFleb (f64_to_f32 x) (f64_to_f32 y) = true.
Proof.
  intros Hx Hy Hxy. pose proof (to32_nnv y Hy) as Hy2.
  destruct (nnv_cases _ _ x Hx) as [[s ->]|[->|[m [e [-> Hb]]]]].
  - apply SFleb_zero_nonneg, Hy2.
  - rewrite (inf_le_nnv _ _ y Hy Hxy). reflexivity.
  - destruct (nnv_cases _ _ y Hy) as [[s' ->]|[->|[m' [e' [-> Hb']]]]].
    + discriminate.
    + apply (nnv_le_inf prec32 emax32), (to32_nnv _ Hx).
    + apply (binary_round_mono prec32 emax32 eq_refl eq_refl).
      exact (finite_leb_val _ _ _ _ _ _ Hb Hb' Hxy).
Qed.

Lemma f32_one_eq : f32_one = S754_finite false 8388608 (-23).
Proof. vm_compute. reflexivity. Qed.

Lemma fval_one : fval 8388608 (-23) = 1%R.
Proof.
  unfold fval. change (Zpos 8388608) with (2 ^ 23)%Z.
  rewrite <- (bpow_IZR 23) by lia. rewrite <- bpow_add. reflexivity.
Qed.

(** A constant [k >= 1] that is a number below [+inf] is a positive finite
    float of value at least 1. *)
Lemma scale_factor k :
  valid_binary prec32 emax32 k = true -> f32_le f32_one k = true ->
  f32_lt k (S754_infinity false) = true ->
  exists mk ek, k = S754_finite false mk ek /\ bounded prec32 emax32 mk ek = true /\ (1 <= fval mk ek)%R.
Proof.
  intros Hv H1 H2. rewrite f32_one_eq in H1.
  destruct k as [s|[]| |[] mk ek]; try discriminate.
  exists mk, ek. split; [reflexivity|]. split; [exact Hv|].
  rewrite <- fval_one. apply (finite_leb_val prec32 emax32); [vm_compute; reflexivity|exact Hv|exact H1].
Qed.

Lemma scale_fin_ge mk ek m e :
  bounded prec32 emax32 mk ek = true -> (1 <= fval mk ek)%R -> bounded prec32 emax32 m e = true ->
  nnv prec32 emax32 (f32_mul (S754_finite false mk ek) (S754_finite false m e)) /\
  SFleb (S754_finite false m e) (f32_mul (S754_finite false mk ek) (S754_finite false m e)) = true.
Proof.
  intros Hk Hk1 Hb.
  change (f32_mul (S754_finite false mk ek) (S754_finite false m e))
    with (binary_round_aux prec32 emax32 false (Zpos (mk * m)) (ek + e) loc_Exact).
  pose proof (bounded_canonical _ _ _ _ Hk) as Hck. pose proof (bounded_canonical _ _ _ _ Hb) as Hcb.
  pose proof (mul_input_ok prec32 emax32 eq_refl eq_refl _ _ _ _ Hck Hcb) as Hok.
  split.
  - exact (round_nnv prec32 emax32 eq_refl eq_refl _ _ _ _ (Pos2Z.is_nonneg _) (mul_exact _ _ _ _) Hok).
  - unfold bounded, canonical_mantissa in Hb. apply andb_prop in Hb as [He Hm].
    apply Z.eqb_eq in He. apply Z.leb_le in Hm.
    rewrite <- (binary_round_aux_exact prec32 emax32 false m e He Hm).
    apply (round_aux_mono prec32 emax32 eq_refl eq_refl _ _ _ (fval m e) _ _ _ (fval mk ek * fval m e));
      [lia|reflexivity| |apply Pos2Z.is_nonneg|apply mul_exact|exact Hok|].
    + unfold round_input_ok. rewrite (canonical_Zdigits2 _ _ _ _ Hcb). lia.
    + pose proof (fval_pos prec32 emax32 m e). nra.
Qed.

Lemma scale_sq_pos mk ek m e :
  bounded prec32 emax32 mk ek = true -> (1 <= fval mk ek)%R -> bounded prec32 emax32 m e = true ->
  let x := S754_finite false m e in
  let y := f32_mul (S754_finite false mk ek) x in
  nnv prec64 emax64 (f64_mul (f32_to_f64 x) (f32_to_f64 x)) /\
  nnv prec64 emax64 (f64_mul (f32_to_f64 y) (f32_to_f64 y)) /\
  SFleb (f64_mul (f32_to_f64 x) (f32_to_f64 x)) (f64_mul (f32_to_f64 y) (f32_to_f64 y)) = true.
Proof.
  intros Hk Hk1 Hb x y. destruct (scale_fin_ge mk ek m e Hk Hk1 Hb) as [Hy Hxy].
  assert (Hx : nnv prec32 emax32 x) by (split; [exact Hb|reflexivity]).
  unfold f64_mul. split; [|split].
  - apply (sq_nnv prec64 emax64 eq_refl eq_refl), to64_nnv, Hx.
  - apply (sq_nnv prec64 emax64 eq_refl eq_refl), to64_nnv, Hy.
  - apply (sq_mono prec64 emax64 eq_refl eq_refl); try apply to64_nnv; try assumption.
    apply to64_mono; assumption.
Qed.

(** Scaling a sample by a finite [k >= 1] does not decrease its square. *)
Lemma scale_sq mk ek x :
  bounded prec32 emax32 mk ek = true -> (1 <= fval mk ek)%R ->
  valid_binary prec32 emax32 x = true -> x <> S754_nan ->
  let y := f32_mul (S754_finite false mk ek) x in
  nnv prec64 emax64 (f64_mul (f32_to_f64 x) (f32_to_f64 x)) /\
  nnv prec64 emax64 (f64_mul (f32_to_f64 y) (f32_to_f64 y)) /\
  SFleb (f64_mul (f32_to_f64 x) (f32_to_f64 x)) (f64_mul (f32_to_f64 y) (f32_to_f64 y)) = true.
Proof.
  intros Hk Hk1 Hv Hn y. unfold y.
  destruct x as [s|s| |[] m e]; [| |congruence| |].
  - replace (f32_mul (S754_finite false mk ek) (S754_zero s)) with (S754_zero s) by (destruct s; reflexivity).
    replace (f64_mul (f32_to_f64 (S754_zero s)) (f32_to_f64 (S754_zero s))) with (S754_zero false)
      by (destruct s; reflexivity).
    split; [|split]; [exact (nnv_zero _ _ _)|exact (nnv_zero _ _ _)|reflexivity].
  - replace (f32_mul (S754_finite false mk ek) (S754_infinity s)) with (S754_infinity s)
      by (destruct s; reflexivity).
    replace (f64_mul (f32_to_f64 (S754_infinity s)) (f32_to_f64 (S754_infinity s)))
      with (S754_infinity false) by (destruct s; reflexivity).
    split; [|split]; [exact (nnv_inf _ _)|exact (nnv_inf _ _)|reflexivity].
  - replace (f32_mul (S754_finite false mk ek) (S754_finite true m e))
      with (SFopp (f32_mul (S754_finite false mk ek) (S754_finite false m e)))
      by (symmetry; apply binary_round_aux_opp).
    change (S754_finite true m e) with (SFopp (S754_finite false m e)). rewrite !sq_opp.
    apply scale_sq_pos; assumption.
  - apply scale_sq_pos; assumption.
Qed.

Lemma scale_sq_all mk ek chunk :
  bounded prec32 emax32 mk ek = true -> (1 <= fval mk ek)%R ->
  Forall (fun x => valid_binary prec32 emax32 x = true /\ x <> S754_nan) chunk ->
  Forall2 (fun x y => nnv prec64 emax64 x /\ nnv prec64 emax64 y /\ SFleb x y = true)
    (map (fun sample => f64_mul (f32_to_f64 sample) (f32_to_f64 sample)) chunk)
    (map (fun sample => f64_mul (f32_to_f64 sample) (f32_to_f64 sample))
       (map (f32_mul (S754_finite false mk ek)) chunk)).
Proof.
  intros Hk Hk1 H. induction H as [|x xs [Hv Hn] _ IH]; simpl; constructor; [|exact IH].
  apply scale_sq; assumption.
Qed.

Lemma len_map {A B} (f : A -> B) (l : list A) : len (map f l) = len l.
Proof. unfold len. rewrite length_map. reflexivity. Qed.

(** The RMS of a chunk of numbers does not decrease when the chunk is scaled. *)
Lemma rms_scale_mono mk ek chunk :
  bounded prec32 emax32 mk ek = true -> (1 <= fval mk ek)%R -> (len chunk <= usize_max)%N ->
  Forall (fun x => valid_binary prec32 emax32 x = true /\ x <> S754_nan) chunk ->
  nnv prec32 emax32 (calculate_rms chunk) /\
  nnv prec32 emax32 (calculate_rms (map (f32_mul (S754_finite false mk ek)) chunk)) /\
  SFleb (calculate_rms chunk) (calculate_rms (map (f32_mul (S754_finite false mk ek)) chunk)) = true.
Proof.
  intros Hk Hk1 Hlen Hc. destruct chunk as [|x xs].
  - split; [|split]; [exact (nnv_zero _ _ _)|exact (nnv_zero _ _ _)|reflexivity].
  - rewrite !calculate_rms_nonempty by discriminate. rewrite len_map.
    destruct (usize_to_f64_exact (@len f32 (x :: xs))) as [md [ed [Hd _]]];
      [unfold len; simpl; lia|exact Hlen|]. rewrite Hd.
    destruct (fold_add_mono prec64 emax64 eq_refl eq_refl _ _ (S754_zero true) (S754_zero true)
      (scale_sq_all mk ek (x :: xs) Hk Hk1 Hc) (nnv_zero _ _ _) (nnv_zero _ _ _) eq_refl)
      as [Hs1 [Hs2 Hs12]].
    unfold f64_sum, f64_add, f64_div, f64_sqrt.
    split; [|split].
    + apply to32_nnv, (sqrt_nnv prec64 emax64 eq_refl eq_refl), (div_nnv prec64 emax64 eq_refl eq_refl), Hs1.
    + apply to32_nnv, (sqrt_nnv prec64 emax64 eq_refl eq_refl), (div_nnv prec64 emax64 eq_refl eq_refl), Hs2.
    + apply to32_mono; try apply (sqrt_nnv prec64 emax64 eq_refl eq_refl); try apply (div_nnv prec64 emax64 eq_refl eq_refl);
        try assumption.
      apply (sqrt_mono prec64 emax64 eq_refl eq_refl); try apply (div_nnv prec64 emax64 eq_refl eq_refl); try assumption.
      apply (div_mono prec64 emax64 eq_refl eq_refl); assumption.
Qed.

Lemma SFltb_leb x y : SFltb x y = true -> SFleb y x = false.
Proof.
  unfold SFltb, SFleb. rewrite (SFcompare_swap x y).
  destruct (SFcompare x y) as [[]|]; simpl; intros H; congruence.
Qed.

Lemma f32_max_nan_l y : f32_max S754_nan y = y.
Proof. reflexivity. Qed.

Lemma f32_max_num x : x <> S754_nan ->
  f32_max x MIN_RMS = if f32_lt x MIN_RMS then MIN_RMS else x.
Proof. destruct x; try reflexivity. congruence. Qed.

(** Clamping at [MIN_RMS] with [f32::max] is monotone on numbers. *)
Lemma f32_max_mono r1 r2 :
  r1 <> S754_nan -> r2 <> S754_nan -> f32_le r1 r2 = true ->
  f32_le (f32_max r1 MIN_RMS) (f32_max r2 MIN_RMS) = true.
Proof.
  intros H1 H2 H12. rewrite !f32_max_num by assumption.
  assert (Hm : MIN_RMS <> S754_nan) by discriminate.
  destruct (f32_lt r1 MIN_RMS) eqn:L1, (f32_lt r2 MIN_RMS) eqn:L2.
  - vm_compute. reflexivity.
  - apply SFleb_not_ltb; assumption.
  - exfalso. apply SFleb_not_ltb in L1; try assumption.
    pose proof (SFleb_trans _ _ _ L1 H12) as H. apply SFltb_leb in L2.
    unfold f32_le in *. congruence.
  - exact H12.
Qed.

Section Scale.
Variable log10 : f32 -> f32.
Hypothesis log10_valid : forall x, valid_binary prec32 emax32 x = true -> f32_le MIN_RMS x = true ->
  valid_binary prec32 emax32 (log10 x) = true.
Hypothesis log10_mono : forall x y, valid_binary prec32 emax32 x = true -> valid_binary prec32 emax32 y = true ->
  f32_le MIN_RMS x = true -> f32_le x y = true -> f32_le (log10 x) (log10 y) = true.

Lemma rms_to_dbfs_mono r1 r2 :
  valid_binary prec32 emax32 r1 = true -> valid_binary prec32 emax32 r2 = true ->
  f32_le (f32_max r1 MIN_RMS) (f32_max r2 MIN_RMS) = true ->
  f32_le (rms_to_dbfs log10 r1) (rms_to_dbfs log10 r2) = true.
Proof.
  intros Hr1 Hr2 H12. destruct (f32_max_floor r1 Hr1) as [Hv1 Hle1].
  destruct (f32_max_floor r2 Hr2) as [Hv2 Hle2].
  unfold rms_to_dbfs, f32_mul, f32_le. rewrite f32_twenty_eq.
  apply mul_mono_l; [reflexivity|reflexivity|exact f32_twenty_bounded| | |].
  - apply log10_valid; assumption.
  - apply log10_valid; assumption.
  - apply log10_mono; assumption.
Qed.
End Scale.

Lemma nan_or_num (chunk : list f32) :
  In S754_nan chunk \/ Forall (fun x => x <> S754_nan) chunk.
Proof.
  induction chunk as [|x xs [IH|IH]]; [right; constructor|left; right; exact IH|].
  destruct x; try (right; constructor; [discriminate|exact IH]). left. left. reflexivity.
Qed.

(** ** Claim C8 *)

(** C8, counterexample: the chunk [[+inf]] scaled by [k = 2 > 1] is the same
    chunk, so its decibel value does not increase; with any [f32::log10] that
    maps [+inf] to [+inf] and [MIN_RMS] to [-10], that value is [+inf], not the
    floor [-200]. *)
Lemma chunk_dbfs_scale_counterexample :
  map (f32_mul (f32_lit 2 0)) [S754_infinity false] = [S754_infinity false] /\
  f32_lt f32_one (f32_lit 2 0) = true /\
  (forall log10 : f32 -> f32,
     log10 (S754_infinity false) = S754_infinity false ->
     log10 MIN_RMS = f32_neg (f32_lit 10 0) ->
     chunk_dbfs log10 (map (f32_mul (f32_lit 2 0)) [S754_infinity false]) =
       chunk_dbfs log10 [S754_infinity false] /\
     chunk_dbfs log10 [S754_infinity false] = S754_infinity false /\
     f32_mul f32_twenty (log10 MIN_RMS) = f32_neg (f32_lit 200 0)).
Proof.
  assert (Hm : map (f32_mul (f32_lit 2 0)) [S754_infinity false] = [S754_infinity false])
    by (vm_compute; reflexivity).
  split; [exact Hm|]. split; [vm_compute; reflexivity|].
  intros log10 Hinf Hmin. rewrite Hm. split; [reflexivity|]. split.
  - unfold chunk_dbfs, rms_to_dbfs.
    replace (calculate_rms [S754_infinity false]) with (S754_infinity false) by (vm_compute; reflexivity).
    replace (f32_max (S754_infinity false) MIN_RMS) with (S754_infinity false) by (vm_compute; reflexivity).
    rewrite Hinf. vm_compute. reflexivity.
  - rewrite Hmin. vm_compute. reflexivity.
Qed.

(** C8, amended: for every chunk of at most [usize::MAX] valid [f32] samples
    and every [f32] constant [k >= 1] below [+inf] (so every finite [k > 1]),
    scaling every sample by [k] (the [f32] product) never decreases the chunk's
    decibel value: [chunk_dbfs log10 chunk <= chunk_dbfs log10 (map (f32_mul k) chunk)].
    [f32::log10] is a parameter, assumed as in claim C10 to return valid floats
    on valid floats [>= MIN_RMS] and to be monotone there. The increase need not
    be strict (see the counterexample above). *)
Theorem chunk_dbfs_scale_mono (log10 : f32 -> f32)
  (Hvalid : forall x, valid_binary prec32 emax32 x = true -> f32_le MIN_RMS x = true ->
     valid_binary prec32 emax32 (log10 x) = true)
  (Hmono : forall x y, valid_binary prec32 emax32 x = true -> valid_binary prec32 emax32 y = true ->
     f32_le MIN_RMS x = true -> f32_le x y = true -> f32_le (log10 x) (log10 y) = true)
  (k : f32) (chunk : list f32)
  (Hk : valid_binary prec32 emax32 k = true) (Hk1 : f32_le f32_one k = true)
  (Hk2 : f32_lt k (S754_infinity false) = true)
  (Hlen : (len chunk <= usize_max)%N)
  (Hc : Forall (fun x => valid_binary prec32 emax32 x = true) chunk) :
  f32_le (chunk_dbfs log10 chunk) (chunk_dbfs log10 (map (f32_mul k) chunk)) = true.
Proof.
  destruct (scale_factor k Hk Hk1 Hk2) as [mk [ek [-> [Hkb Hkv]]]].
  unfold chunk_dbfs. apply rms_to_dbfs_mono; try assumption; try apply calculate_rms_valid.
  destruct (nan_or_num chunk) as [Hin|Hn].
  - rewrite (calculate_rms_nan chunk Hin), calculate_rms_nan.
    + vm_compute. reflexivity.
    + change S754_nan with (f32_mul (S754_finite false mk ek) S754_nan). apply in_map. exact Hin.
  - destruct (rms_scale_mono mk ek chunk Hkb Hkv Hlen) as [H1 [H2 H12]].
    + apply Forall_and; assumption.
    + apply f32_max_mono; [exact (nnv_not_nan _ _ _ H1)|exact (nnv_not_nan _ _ _ H2)|exact H12].
Qed.

Lemma chunk_dbfs_scale_mono_witness :
  chunk_dbfs (fun x => x) [f32_one] = f32_twenty /\
  chunk_dbfs (fun x => x) (map (f32_mul (f32_lit 2 0)) [f32_one]) = f32_lit 40 0 /\
  f32_le (chunk_dbfs (fun x => x) [f32_one])
         (chunk_dbfs (fun x => x) (map (f32_mul (f32_lit 2 0)) [f32_one])) = true.
Proof.
  split; [vm_compute; reflexivity|]. split; [vm_compute; reflexivity|].
  apply (chunk_dbfs_scale_mono (fun x => x) (fun x Hx _ => Hx) (fun x y _ _ _ Hxy => Hxy)
           (f32_lit 2 0) [f32_one]).
  - vm_compute. reflexivity.
  - vm_compute. reflexivity.
  - vm_compute. reflexivity.
  - vm_compute. discriminate.
  - repeat constructor.
Defined.

(** * Further properties of the code *)

(** ** Sign of the samples *)

Lemma f32_neg_opp x : f32_neg x = SFopp x.
Proof. destruct x; reflexivity. Qed.

Lemma calculate_rms_map_neg (chunk : list f32) :
  calculate_rms (map f32_neg chunk) = calculate_rms chunk.
Proof.
  destruct chunk as [|x xs]; [reflexivity|].
  rewrite !calculate_rms_nonempty by discriminate. rewrite len_map, map_map.
  f_equal. f_equal. f_equal. f_equal. apply map_ext. intros s. rewrite f32_neg_opp. apply sq_opp.
Qed.

Lemma spec_chunk_map {A B} (f : A -> B) n (l : list A) i :
  spec_chunk n (map f l) i = map f (spec_chunk n l i).
Proof. unfold spec_chunk. rewrite skipn_map, firstn_map. reflexivity. Qed.

Lemma spec_partition_map {A B} (f : A -> B) n (l : list A) :
  spec_partition n (map f l) = map (map f) (spec_partition n l).
Proof.
  unfold spec_partition. rewrite length_map, map_map. apply map_ext. intros i. apply spec_chunk_map.
Qed.


(** X2: [analyze_audio_rms] does not depend on the polarity of the signal:
    on the buffer with every sample negated it returns the same result
    (the same [None] in the case of a panic). *)
Theorem analyze_audio_rms_neg_invariant (p : profile) (log10 : f32 -> f32) (pcm : list f32) (n : N) :
  analyze_audio_rms p log10 (map f32_neg pcm) n = analyze_audio_rms p log10 pcm n.
Proof.
  destruct (N.eq_dec (len pcm) 0) as [H0|H0].
  - destruct pcm; [reflexivity|discriminate].
  - destruct (N.eq_dec n 0) as [->|Hn].
    + unfold analyze_audio_rms. rewrite !orb_true_r. reflexivity.
    + rewrite !analyze_audio_rms_nonempty by (try rewrite len_map; assumption).
      rewrite len_map. destruct (capacity_overflows p (len pcm) n); [reflexivity|].
      rewrite spec_partition_map, map_map. f_equal. apply map_ext. intros c.
      unfold chunk_dbfs. rewrite calculate_rms_map_neg. reflexivity.
Qed.

(** ** Monotonicity of [rms_to_dbfs] *)

(** X3: [rms_to_dbfs] is monotone: for valid non-NaN RMS values [r1 <= r2],
    [rms_to_dbfs r1 <= rms_to_dbfs r2], when [f32::log10] returns valid floats
    and is monotone on values [>= MIN_RMS]. *)
Theorem rms_to_dbfs_monotone (log10 : f32 -> f32)
  (Hvalid : forall x, valid_binary prec32 emax32 x = true -> f32_le MIN_RMS x = true ->
     valid_binary prec32 emax32 (log10 x) = true)
  (Hmono : forall x y, valid_binary prec32 emax32 x = true -> valid_binary prec32 emax32 y = true ->
     f32_le MIN_RMS x = true -> f32_le x y = true -> f32_le (log10 x) (log10 y) = true)
  (r1 r2 : f32) :
  valid_binary prec32 emax32 r1 = true -> valid_binary prec32 emax32 r2 = true ->
  r1 <> S754_nan -> r2 <> S754_nan -> f32_le r1 r2 = true ->
  f32_le (rms_to_dbfs log10 r1) (rms_to_dbfs log10 r2) = true.
Proof.
  intros V1 V2 N1 N2 H12. apply rms_to_dbfs_mono; try assumption.
  apply f32_max_mono; assumption.
Qed.

Lemma rms_to_dbfs_monotone_witness :
  rms_to_dbfs (fun x => x) f32_one = f32_twenty /\
  f32_le (rms_to_dbfs (fun x => x) f32_one) (rms_to_dbfs (fun x => x) f32_twenty) = true.
Proof.
  split; [vm_compute; reflexivity|].
  apply (rms_to_dbfs_monotone (fun x => x) (fun x Hx _ => Hx) (fun x y _ _ _ Hxy => Hxy));
    try (vm_compute; reflexivity); discriminate.
Defined.

(** ** Chunk boundaries *)

Lemma spec_partition_short {A} n (l : list A) :
  (0 < length l <= n)%nat -> spec_partition n l = [l].
Proof.
  intros [H0 Hn]. unfold spec_partition, ceil_div.
  assert (Hc : (length l / n + (if length l mod n =? 0 then 0 else 1) = 1)%nat).
  { destruct (Nat.eq_dec (length l) n) as [->|Hne].
    - rewrite Nat.div_same, Nat.Div0.mod_same by lia. reflexivity.
    - rewrite Nat.div_small, Nat.mod_small by lia.
      destruct (Nat.eqb_spec (length l) 0); [lia|reflexivity]. }
  rewrite Hc. simpl. unfold spec_chunk. simpl. rewrite firstn_all2 by lia. reflexivity.
Qed.

Lemma map_seq_shift {B} c : forall (f : nat -> B) q,
  map f (seq q c) = map (fun j => f (q + j)%nat) (seq 0 c).
Proof.
  induction c as [|c IH]; intros f q; [reflexivity|]. simpl.
  rewrite Nat.add_0_r. f_equal. rewrite (IH f), (IH _ 1%nat). apply map_ext. intros j. f_equal. lia.
Qed.

Lemma spec_partition_app {A} n (l1 l2 : list A) :
  (0 < n)%nat -> (length l1 mod n = 0)%nat ->
  spec_partition n (l1 ++ l2) = spec_partition n l1 ++ spec_partition n l2.
Proof.
  intros Hn Hm. set (q := (length l1 / n)%nat).
  assert (Hq : length l1 = (q * n)%nat).
  { pose proof (Nat.div_mod_eq (length l1) n). unfold q. lia. }
  unfold spec_partition, ceil_div. rewrite length_app, Hq.
  rewrite Nat.div_add_l, Nat.div_mul, Nat.Div0.mod_mul by lia.
  replace ((q * n + length l2) mod n)%nat with (length l2 mod n)%nat
    by (rewrite Nat.add_comm, Nat.Div0.mod_add; reflexivity).
  simpl. rewrite Nat.add_0_r, <- Nat.add_assoc, seq_app, map_app. f_equal.
  - apply map_ext_in. intros i Hi. apply in_seq in Hi. unfold spec_chunk.
    rewrite skipn_app, firstn_app, length_skipn, Hq.
    replace (n - (q * n - i * n))%nat with 0%nat by nia. simpl. apply app_nil_r.
  - rewrite map_seq_shift. apply map_ext. intros j. unfold spec_chunk.
    rewrite skipn_app, skipn_all2 by nia. simpl. rewrite Hq.
    replace ((q + j) * n - q * n)%nat with (j * n)%nat by nia. reflexivity.
Qed.

Lemma capacity_overflows_le p a b n :
  (a <= b)%N -> capacity_overflows p b n = false -> capacity_overflows p a n = false.
Proof.
  unfold capacity_overflows. destruct p; [|reflexivity].
  intros Hab H. apply negb_false_iff in H. apply negb_false_iff. apply N.leb_le in H. apply N.leb_le. lia.
Qed.

Lemma analyze_audio_rms_some p log10 pcm n :
  capacity_overflows p (len pcm) n = false ->
  analyze_audio_rms p log10 pcm n = Some (if N.eqb n 0 then [] else map (chunk_dbfs log10) (spec_partition (N.to_nat n) pcm)).
Proof.
  intros Hc. destruct (N.eq_dec (len pcm) 0) as [H0|H0].
  - destruct pcm; [|discriminate]. unfold analyze_audio_rms. simpl.
    destruct (N.eqb n 0); [reflexivity|].
    unfold spec_partition, ceil_div. simpl length. rewrite Nat.Div0.div_0_l, Nat.Div0.mod_0_l. reflexivity.
  - destruct (N.eq_dec n 0) as [->|Hn].
    + unfold analyze_audio_rms. rewrite !orb_true_r. reflexivity.
    + rewrite analyze_audio_rms_nonempty, Hc by assumption.
      destruct (N.eqb_spec n 0); [contradiction|reflexivity].
Qed.

(** X4: a chunk size at least the number of samples gives one chunk: for
    [0 < len pcm <= n], when the capacity computation does not overflow,
    [analyze_audio_rms] returns the decibel value of the whole buffer, alone. *)
Theorem analyze_audio_rms_single_chunk (p : profile) (log10 : f32 -> f32) (pcm : list f32) (n : N) :
  (0 < len pcm <= n)%N -> capacity_overflows p (len pcm) n = false ->
  analyze_audio_rms p log10 pcm n = Some [chunk_dbfs log10 pcm].
Proof.
  intros Hl Hc. rewrite analyze_audio_rms_some by exact Hc.
  destruct (N.eqb_spec n 0); [lia|]. rewrite spec_partition_short; [reflexivity|].
  rewrite <- len_length. lia.
Qed.

Lemma analyze_audio_rms_single_chunk_witness :
  (0 < len [f32_one; f32_twenty] <= 3)%N /\ capacity_overflows Debug (len [f32_one; f32_twenty]) 3 = false /\
  analyze_audio_rms Debug (fun x => x) [f32_one; f32_twenty] 3 =
    Some [chunk_dbfs (fun x => x) [f32_one; f32_twenty]].
Proof.
  assert (H1 : (0 < len [f32_one; f32_twenty] <= 3)%N) by (vm_compute; split; [reflexivity|discriminate]).
  assert (H2 : capacity_overflows Debug (len [f32_one; f32_twenty]) 3 = false) by reflexivity.
  split; [exact H1|]. split; [exact H2|].
  exact (analyze_audio_rms_single_chunk Debug (fun x => x) [f32_one; f32_twenty] 3 H1 H2).
Defined.

(** X5: the analysis can be split at a chunk boundary: when [len pcm1] is a
    multiple of the chunk size [n <> 0] and the capacity computation for the
    whole buffer does not overflow, [analyze_audio_rms (pcm1 ++ pcm2)] is the
    concatenation of [analyze_audio_rms pcm1] and [analyze_audio_rms pcm2]. *)
Theorem analyze_audio_rms_app (p : profile) (log10 : f32 -> f32) (pcm1 pcm2 : list f32) (n : N) :
  n <> 0%N -> (len pcm1 mod n = 0)%N -> capacity_overflows p (len (pcm1 ++ pcm2)) n = false ->
  exists a b, analyze_audio_rms p log10 pcm1 n = Some a /\ analyze_audio_rms p log10 pcm2 n = Some b /\
    analyze_audio_rms p log10 (pcm1 ++ pcm2) n = Some (a ++ b).
Proof.
  intros Hn Hm Hc.
  assert (Hl : forall l : list f32, len l = N.of_nat (length l)) by reflexivity.
  assert (H1 : capacity_overflows p (len pcm1) n = false).
  { apply (capacity_overflows_le _ _ _ _ (N.le_refl _)) in Hc.
    apply (capacity_overflows_le _ (len pcm1) _ _) in Hc; [exact Hc|].
    rewrite !Hl, length_app. lia. }
  assert (H2 : capacity_overflows p (len pcm2) n = false).
  { apply (capacity_overflows_le _ (len pcm2) _ _) in Hc; [exact Hc|]. rewrite !Hl, length_app. lia. }
  rewrite !analyze_audio_rms_some by assumption.
  do 2 eexists. split; [reflexivity|]. split; [reflexivity|].
  destruct (N.eqb_spec n 0); [contradiction|]. rewrite spec_partition_app, map_app; [reflexivity|lia|].
  rewrite <- len_length. rewrite <- N2Nat.inj_mod by exact Hn. rewrite Hm. reflexivity.
Qed.

Lemma analyze_audio_rms_app_witness :
  exists a b,
    analyze_audio_rms Debug (fun x => x) [f32_one; f32_twenty] 2 = Some a /\
    analyze_audio_rms Debug (fun x => x) [f32_one] 2 = Some b /\
    analyze_audio_rms Debug (fun x => x) ([f32_one; f32_twenty] ++ [f32_one]) 2 = Some (a ++ b).
Proof.
  apply (analyze_audio_rms_app Debug (fun x => x) [f32_one; f32_twenty] [f32_one] 2);
    [discriminate|reflexivity|reflexivity].
Defined.

(** ** Exact results *)

Lemma SFleb_antisym_pos x y :
  signed_number false x -> signed_number false y -> SFleb x y = true -> SFleb y x = true -> x = y.
Proof.
  intros Hx Hy H1 H2.
  pose proof (signed_not_nan _ _ Hx) as Nx. pose proof (signed_not_nan _ _ Hy) as Ny.
  apply (SFleb_key _ _ Nx Ny) in H1. apply (SFleb_key _ _ Ny Nx) in H2.
  destruct x as [sx|sx| |sx mx ex], y as [sy|sy| |sy my ey]; simpl in Hx, Hy; try contradiction;
    subst; simpl in H1, H2; try reflexivity; try (exfalso; lia).
  assert (ex = ey) by lia. assert (Zpos mx = Zpos my) by lia. congruence.
Qed.

(** Rounding is a function of the exact value: two exact inputs of the same
    value round to the same float. *)
Lemma round_aux_value_eq prec emax (Hprec : (0 < prec)%Z) (Hemax : (prec < emax)%Z) q e l x m' e' :
  (0 <= q)%Z -> inbetween q e l x -> round_input_ok prec emax q e -> x = fval m' e' ->
  binary_round_aux prec emax false q e l = binary_round prec emax false m' e'.
Proof.
  intros Hq Hi Hok ->. unfold binary_round.
  pose proof (binary_round_inbetween prec emax m' e') as H2.
  destruct (shl_align m' e' _) as [mz ez]. destruct H2 as [Hi2 Hok2].
  apply SFleb_antisym_pos.
  - apply binary_round_aux_signed. exact Hq.
  - apply binary_round_aux_signed. lia.
  - apply (round_aux_mono prec emax Hprec Hemax _ _ _ _ _ _ _ _ Hq Hi Hok (Pos2Z.is_nonneg _) Hi2 Hok2).
    lra.
  - apply (round_aux_mono prec emax Hprec Hemax _ _ _ _ _ _ _ _ (Pos2Z.is_nonneg _) Hi2 Hok2 Hq Hi Hok).
    lra.
Qed.

Lemma binary_round_value_eq prec emax (Hprec : (0 < prec)%Z) (Hemax : (prec < emax)%Z) m e m' e' :
  fval m e = fval m' e' -> binary_round prec emax false m e = binary_round prec emax false m' e'.
Proof.
  intros Hv. unfold binary_round at 1.
  pose proof (binary_round_inbetween prec emax m e) as H1.
  destruct (shl_align m e _) as [mz ez]. destruct H1 as [Hi1 Hok1].
  apply (round_aux_value_eq prec emax Hprec Hemax _ _ _ (fval m e)); [lia|exact Hi1|exact Hok1|exact Hv].
Qed.

Lemma usize_to_f64_pos (n : positive) : usize_to_f64 (Npos n) = binary_round prec64 emax64 false n 0.
Proof. reflexivity. Qed.

Lemma usize_to_f64_value (n : N) :
  (1 <= n)%N -> (n <= usize_max)%N ->
  exists m e, usize_to_f64 n = S754_finite false m e /\ fval m e = IZR (Z.of_N n).
Proof.
  intros H1 H2. destruct (usize_to_f64_exact n H1 H2) as [m [e [Hn [He Hm]]]].
  exists m, e. split; [exact Hn|]. unfold fval. rewrite Hm, mult_IZR, <- bpow_IZR by lia.
  rewrite Rmult_assoc, <- bpow_add. replace (- e + e)%Z with 0%Z by lia. simpl. ring.
Qed.

Definition f64_one : f64 := S754_finite false 4503599627370496 (-52).

Lemma f64_one_eq : binary_round prec64 emax64 false 1 0 = f64_one.
Proof. vm_compute. reflexivity. Qed.

Lemma fold_add_ones (n : nat) :
  (1 <= n)%nat -> (N.of_nat n <= usize_max)%N ->
  fold_left f64_add (repeat f64_one n) (S754_zero true) = usize_to_f64 (N.of_nat n).
Proof.
  induction n as [|n IH]; intros H1 H2; [lia|].
  destruct (Nat.eq_dec n 0) as [->|Hn]; [vm_compute; reflexivity|].
  replace (S n) with (n + 1)%nat at 1 by lia. rewrite repeat_app.
  rewrite fold_left_app, IH by lia. simpl fold_left.
  destruct (usize_to_f64_value (N.of_nat n)) as [m [e [-> Hv]]]; [lia|lia|].
  unfold f64_add, f64_one. destruct (add_pos_eq prec64 emax64 m e 4503599627370496 (-52)) as [p [ez [-> Hp]]].
  change (N.of_nat (S n)) with (Npos (Pos.of_succ_nat n)). rewrite usize_to_f64_pos.
  apply (binary_round_value_eq prec64 emax64 eq_refl eq_refl). rewrite Hp, Hv.
  unfold fval. rewrite nat_N_Z, Zpos_P_of_succ_nat, succ_IZR, <- INR_IZR_INZ.
  change (Zpos 4503599627370496) with (2 ^ 52)%Z.
  rewrite <- (bpow_IZR 52) by lia. rewrite <- bpow_add. simpl. ring.
Qed.

Lemma calculate_rms_repeat_one_eq (n : nat) :
  (1 <= n)%nat -> (N.of_nat n <= usize_max)%N -> calculate_rms (repeat f32_one n) = f32_one.
Proof.
  intros H1 H2. destruct n as [|n']; [lia|].
  rewrite calculate_rms_nonempty by discriminate. rewrite map_repeat.
  replace (f64_mul (f32_to_f64 f32_one) (f32_to_f64 f32_one)) with f64_one by (vm_compute; reflexivity).
  unfold f64_sum. rewrite fold_add_ones by assumption.
  replace (len (repeat f32_one (S n'))) with (N.of_nat (S n')) by (unfold len; rewrite repeat_length; reflexivity).
  destruct (usize_to_f64_value (N.of_nat (S n'))) as [m [e [Hd Hv]]]; [lia|exact H2|]. rewrite Hd.
  unfold f64_div. rewrite div_fin_eq. pose proof (div_core_spec prec64 emax64 m e m e) as H.
  destruct (SFdiv_core_binary _ _ _ _ _ _) as [[q e'] l]. destruct H as [Hq [Hi Hok]].
  rewrite (round_aux_value_eq prec64 emax64 eq_refl eq_refl q e' l _ 1 0 Hq Hi Hok).
  - rewrite f64_one_eq. vm_compute. reflexivity.
  - pose proof (fval_pos prec64 emax64 m e). unfold fval at 3. simpl. field. lra.
Qed.

(** The RMS, step by step: pointwise ordered squares give ordered RMS values. *)
Lemma rms_mono_chain (xs ys : list f32) :
  length xs = length ys -> (len xs <= usize_max)%N ->
  Forall2 (fun a b => nnv prec64 emax64 a /\ nnv prec64 emax64 b /\ SFleb a b = true)
    (map (fun sample => f64_mul (f32_to_f64 sample) (f32_to_f64 sample)) xs)
    (map (fun sample => f64_mul (f32_to_f64 sample) (f32_to_f64 sample)) ys) ->
  nnv prec32 emax32 (calculate_rms xs) /\ nnv prec32 emax32 (calculate_rms ys) /\
  SFleb (calculate_rms xs) (calculate_rms ys) = true.
Proof.
  intros Hlen Hmax H. destruct xs as [|x xs], ys as [|y ys]; try discriminate.
  - split; [|split]; [exact (nnv_zero _ _ _)|exact (nnv_zero _ _ _)|reflexivity].
  - rewrite !calculate_rms_nonempty by discriminate.
    replace (len (y :: ys)) with (len (x :: xs)) by (unfold len; rewrite Hlen; reflexivity).
    destruct (usize_to_f64_exact (@len f32 (x :: xs))) as [md [ed [Hd _]]];
      [unfold len; simpl; lia|exact Hmax|]. rewrite Hd.
    destruct (fold_add_mono prec64 emax64 eq_refl eq_refl _ _ (S754_zero true) (S754_zero true)
      H (nnv_zero _ _ _) (nnv_zero _ _ _) eq_refl) as [Hs1 [Hs2 Hs12]].
    unfold f64_sum, f64_add, f64_div, f64_sqrt.
    split; [|split].
    + apply to32_nnv, (sqrt_nnv prec64 emax64 eq_refl eq_refl), (div_nnv prec64 emax64 eq_refl eq_refl), Hs1.
    + apply to32_nnv, (sqrt_nnv prec64 emax64 eq_refl eq_refl), (div_nnv prec64 emax64 eq_refl eq_refl), Hs2.
    + apply to32_mono; try apply (sqrt_nnv prec64 emax64 eq_refl eq_refl);
        try apply (div_nnv prec64 emax64 eq_refl eq_refl); try assumption.
      apply (sqrt_mono prec64 emax64 eq_refl eq_refl); try apply (div_nnv prec64 emax64 eq_refl eq_refl);
        try assumption.
      apply (div_mono prec64 emax64 eq_refl eq_refl); assumption.
Qed.

Lemma nnv_of_ge_zero x :
  valid_binary prec32 emax32 x = true -> f32_le f32_zero x = true -> nnv prec32 emax32 x.
Proof.
  intros Hv H. split; [exact Hv|].
  destruct x as [s|[]| |[] m e]; try discriminate; simpl; auto.
Qed.

Lemma sq_mono_nnv x y :
  nnv prec32 emax32 x -> nnv prec32 emax32 y -> f32_le x y = true ->
  nnv prec64 emax64 (f64_mul (f32_to_f64 x) (f32_to_f64 x)) /\
  nnv prec64 emax64 (f64_mul (f32_to_f64 y) (f32_to_f64 y)) /\
  SFleb (f64_mul (f32_to_f64 x) (f32_to_f64 x)) (f64_mul (f32_to_f64 y) (f32_to_f64 y)) = true.
Proof.
  intros Hx Hy Hxy. unfold f64_mul. split; [|split].
  - apply (sq_nnv prec64 emax64 eq_refl eq_refl), to64_nnv, Hx.
  - apply (sq_nnv prec64 emax64 eq_refl eq_refl), to64_nnv, Hy.
  - apply (sq_mono prec64 emax64 eq_refl eq_refl); try apply to64_nnv; try assumption.
    apply to64_mono; assumption.
Qed.

(** In [-1, 1], the square is at most the square of [1.0]. *)
Lemma sq_le_one x :
  valid_binary prec32 emax32 x = true -> f32_le (f32_neg f32_one) x = true -> f32_le x f32_one = true ->
  nnv prec64 emax64 (f64_mul (f32_to_f64 x) (f32_to_f64 x)) /\
  nnv prec64 emax64 (f64_mul (f32_to_f64 f32_one) (f32_to_f64 f32_one)) /\
  SFleb (f64_mul (f32_to_f64 x) (f32_to_f64 x)) (f64_mul (f32_to_f64 f32_one) (f32_to_f64 f32_one)) = true.
Proof.
  intros Hv Hlo Hhi. assert (H1 : nnv prec32 emax32 f32_one) by (split; [vm_compute; reflexivity|reflexivity]).
  destruct x as [s|[]| |[] m e]; try discriminate.
  - apply sq_mono_nnv; [exact (nnv_zero _ _ _)|exact H1|reflexivity].
  - change (S754_finite true m e) with (SFopp (S754_finite false m e)). rewrite sq_opp.
    apply sq_mono_nnv; [split; [exact Hv|reflexivity]|exact H1|].
    rewrite f32_neg_opp in Hlo. unfold f32_le in *. rewrite <- SFleb_opp. exact Hlo.
  - apply sq_mono_nnv; [split; [exact Hv|reflexivity]|exact H1|exact Hhi].
Qed.

Lemma calculate_rms_sq_ext (xs ys : list f32) :
  map (fun sample => f64_mul (f32_to_f64 sample) (f32_to_f64 sample)) xs =
  map (fun sample => f64_mul (f32_to_f64 sample) (f32_to_f64 sample)) ys ->
  calculate_rms xs = calculate_rms ys.
Proof.
  intros H. assert (Hl : length xs = length ys) by
    (rewrite <- (length_map (fun sample => f64_mul (f32_to_f64 sample) (f32_to_f64 sample)) xs), H; apply length_map).
  destruct xs as [|x xs], ys as [|y ys]; try discriminate; [reflexivity|].
  rewrite !calculate_rms_nonempty by discriminate. rewrite H.
  unfold len. rewrite Hl. reflexivity.
Qed.

Lemma nnv32_not_nan x : nnv prec32 emax32 x -> x <> S754_nan.
Proof. intros [_ H] ->. exact H. Qed.

Lemma Forall_spec_partition {A} (P : A -> Prop) (n : nat) (l : list A) :
  Forall P l -> Forall (fun c => Forall P c /\ (length c <= length l)%nat) (spec_partition n l).
Proof.
  intros H. unfold spec_partition. apply Forall_map, Forall_forall. intros i _. unfold spec_chunk.
  split.
  - rewrite Forall_forall in *. intros x Hx. apply H.
    rewrite <- (firstn_skipn (i * n) l). apply in_or_app. right.
    rewrite <- (firstn_skipn n (skipn (i * n) l)). apply in_or_app. left. exact Hx.
  - rewrite length_firstn, length_skipn. lia.
Qed.

(** X6: a chunk whose samples are each [1.0] or [-1.0] (a full-scale
    square wave or DC signal) has an RMS of exactly [1.0], for every
    chunk length from 1 up to [usize::MAX]. *)
Theorem calculate_rms_full_scale (chunk : list f32) :
  chunk <> [] -> (len chunk <= usize_max)%N ->
  Forall (fun s => s = f32_one \/ s = f32_neg f32_one) chunk ->
  calculate_rms chunk = f32_one.
Proof.
  intros Hne Hmax Hall.
  rewrite (calculate_rms_sq_ext chunk (repeat f32_one (length chunk))).
  - apply calculate_rms_repeat_one_eq; [destruct chunk; [congruence|simpl; lia]|exact Hmax].
  - clear Hne Hmax. induction Hall as [|x xs Hx _ IH]; [reflexivity|].
    simpl. rewrite IH. f_equal. destruct Hx as [->| ->]; [reflexivity|].
    rewrite f32_neg_opp. apply sq_opp.
Qed.

Lemma calculate_rms_full_scale_witness :
  (len [f32_one; f32_neg f32_one; f32_one] <= usize_max)%N /\
  calculate_rms [f32_one; f32_neg f32_one; f32_one] = f32_one.
Proof.
  split; [vm_compute; discriminate|].
  apply calculate_rms_full_scale; [discriminate|vm_compute; discriminate|].
  repeat apply Forall_cons; try apply Forall_nil; auto.
Defined.

(** X7: [calculate_rms] is monotone: if two chunks of the same length hold
    valid samples with [0 <= a_i <= b_i] at every position, and the length is
    at most [usize::MAX], the RMS of the first is at most the RMS of the
    second. *)
Theorem calculate_rms_monotone (xs ys : list f32) :
  Forall2 (fun a b => valid_binary prec32 emax32 a = true /\ valid_binary prec32 emax32 b = true /\
                      f32_le f32_zero a = true /\ f32_le a b = true) xs ys ->
  (len xs <= usize_max)%N ->
  f32_le (calculate_rms xs) (calculate_rms ys) = true.
Proof.
  intros H Hmax. apply rms_mono_chain; [eapply Forall2_length, H|exact Hmax|].
  clear Hmax. induction H as [|a b xs ys [Va [Vb [Za Hab]]] _ IH]; [constructor|].
  simpl. constructor; [|exact IH].
  assert (Na : nnv prec32 emax32 a) by (apply nnv_of_ge_zero; assumption).
  apply sq_mono_nnv; [exact Na| |exact Hab].
  apply nnv_of_ge_zero; [exact Vb|]. unfold f32_le in *.
  apply (SFleb_trans _ a); assumption.
Qed.

Lemma calculate_rms_monotone_witness :
  f32_le (calculate_rms [f32_zero; f32_one]) (calculate_rms [f32_one; f32_twenty]) = true.
Proof.
  apply calculate_rms_monotone; [|vm_compute; discriminate].
  repeat constructor; vm_compute; reflexivity.
Defined.

Definition in_unit_range (s : f32) : Prop :=
  valid_binary prec32 emax32 s = true /\ f32_le (f32_neg f32_one) s = true /\ f32_le s f32_one = true.

Lemma calculate_rms_unit_range (chunk : list f32) :
  Forall in_unit_range chunk -> (len chunk <= usize_max)%N ->
  nnv prec32 emax32 (calculate_rms chunk) /\ f32_le (calculate_rms chunk) f32_one = true.
Proof.
  intros H Hmax. destruct chunk as [|x xs].
  - split; [exact (nnv_zero _ _ _)|reflexivity].
  - destruct (rms_mono_chain (x :: xs) (repeat f32_one (length (x :: xs)))) as [N1 [_ L]].
    + rewrite repeat_length. reflexivity.
    + exact Hmax.
    + clear Hmax. induction H as [|y ys [Vy [Ly Hy]] _ IH]; [constructor|].
      simpl. constructor; [apply sq_le_one; assumption|exact IH].
    + rewrite calculate_rms_repeat_one_eq in L; [split; assumption|simpl; lia|exact Hmax].
Qed.

(** X8: when every sample of a chunk is a valid float in [-1.0, 1.0] (the
    normalised PCM range) and the chunk is at most [usize::MAX] long, the RMS
    it returns is at most [1.0]. *)
Theorem calculate_rms_le_one (chunk : list f32) :
  Forall in_unit_range chunk -> (len chunk <= usize_max)%N ->
  f32_le (calculate_rms chunk) f32_one = true.
Proof. intros H Hmax. apply calculate_rms_unit_range; assumption. Qed.

Lemma calculate_rms_le_one_witness :
  f32_le (calculate_rms [f32_neg f32_one; f32_zero; f32_one]) f32_one = true.
Proof.
  apply calculate_rms_le_one; [|vm_compute; discriminate].
  repeat apply Forall_cons; try apply Forall_nil; split; vm_compute; auto.
Defined.

(** X9: for a [log10] that maps valid floats at or above [MIN_RMS] to valid
    floats and is monotone there, when every sample of the buffer is a valid
    float in [-1.0, 1.0] and [analyze_audio_rms] does not panic, no level it
    returns exceeds the level of a full-scale signal, [rms_to_dbfs 1.0]
    (0 dBFS). *)
Theorem analyze_audio_rms_le_full_scale (p : profile) (log10 : f32 -> f32)
  (Hvalid : forall x, valid_binary prec32 emax32 x = true -> f32_le MIN_RMS x = true ->
     valid_binary prec32 emax32 (log10 x) = true)
  (Hmono : forall x y, valid_binary prec32 emax32 x = true -> valid_binary prec32 emax32 y = true ->
     f32_le MIN_RMS x = true -> f32_le x y = true -> f32_le (log10 x) (log10 y) = true)
  (pcm : list f32) (n : N) :
  Forall in_unit_range pcm -> (len pcm <= usize_max)%N ->
  capacity_overflows p (len pcm) n = false ->
  exists r, analyze_audio_rms p log10 pcm n = Some r /\
    Forall (fun level => f32_le level (rms_to_dbfs log10 f32_one) = true) r.
Proof.
  intros H Hmax Hc. eexists. split; [apply analyze_audio_rms_some, Hc|].
  destruct (N.eqb n 0); [constructor|].
  apply Forall_map. apply Forall_impl with (2 := Forall_spec_partition _ (N.to_nat n) _ H).
  intros c [Hc' Hl]. assert (Hcm : (len c <= usize_max)%N) by (unfold len in *; lia).
  destruct (calculate_rms_unit_range c Hc' Hcm) as [Nc Lc].
  unfold chunk_dbfs. apply (rms_to_dbfs_mono log10 Hvalid Hmono).
  - apply Nc.
  - vm_compute. reflexivity.
  - apply f32_max_mono; [apply nnv32_not_nan, Nc|discriminate|exact Lc].
Qed.

Lemma analyze_audio_rms_le_full_scale_witness :
  exists r, analyze_audio_rms Debug (fun x => x) [f32_one; f32_zero; f32_neg f32_one] 2 = Some r /\
    Forall (fun level => f32_le level (rms_to_dbfs (fun x => x) f32_one) = true) r.
Proof.
  apply (analyze_audio_rms_le_full_scale Debug (fun x => x) (fun x Hx _ => Hx) (fun x y _ _ _ Hxy => Hxy)).
  - repeat apply Forall_cons; try apply Forall_nil; split; vm_compute; auto.
  - vm_compute. discriminate.
  - vm_compute. reflexivity.
Defined.
